(** * The VCX node wrapper: domain operations over the FFI callback bridge

    A shallow embedding of [vcx/wrappers/node/src/api/utils.ts] and
    [vcx/wrappers/node/src/api/wallet.ts].  Every asynchronous operation of
    these two files has the same shape: inside a [try] block it awaits the
    promise built by [createFFICallbackPromise] from an executor, which
    calls one native entry point and rejects on a non-zero immediate
    status, and from a callback maker, whose callback rejects on a non-zero
    error code and resolves otherwise; the [catch] block wraps whatever was
    caught in a [VCXInternalError].

    JavaScript promises are modelled by a heap of promise states that can
    be settled once; the native library is an environment that answers
    each call with an immediate status and later invokes the callbacks it
    was handed. *)

From Stdlib Require Import ZArith Lia.
From stdpp Require Import base option list strings.

Local Open Scope string_scope.
Local Open Scope list_scope.
Local Open Scope nat_scope.

(** ** JavaScript values *)

(** The values that travel through the wrapper: what the native layer
    passes to callbacks, what is resolved, rejected, thrown and caught. *)
Inductive JsValue : Type :=
| VUndefined
| VNull
| VBool (b : bool)
| VNum (n : Z)
| VStr (s : string)
| VStrings (l : list string)
| VObject (ref : nat)
| VError (msg : string).

(** [if (rc)] on a number: every number but zero is truthy (status and
    error codes are [uint32] values, so NaN does not occur). *)
Definition truthy (n : Z) : bool := negb (n =? 0)%Z.

(** ** Promises *)

Inductive PromiseState : Type :=
| Pending
| Fulfilled (v : JsValue)
| Rejected (reason : JsValue).

Definition settled (s : PromiseState) : bool :=
  match s with Pending => false | _ => true end.

(** The promise heap.  [states] holds one cell per promise created so far;
    [attempts] logs every call of a [resolve] or [reject] function, in
    order, whether or not it had an effect. *)
Record Heap : Type := mkHeap {
  states : list PromiseState;
  attempts : list (nat * PromiseState)
}.

(** Calling [resolve] or [reject] of promise [p]: the first call settles
    the promise, every later call is ignored. *)
Definition settle (p : nat) (s : PromiseState) (h : Heap) : Heap :=
  {| states := match states h !! p with
               | Some Pending => <[p := s]> (states h)
               | _ => states h
               end;
     attempts := attempts h ++ [(p, s)] |}.

(** The pair of functions a promise executor receives. *)
Definition Resolver : Type := JsValue -> Heap -> Heap.

Definition resolve_of (p : nat) : Resolver := fun v => settle p (Fulfilled v).
Definition reject_of (p : nat) : Resolver := fun e => settle p (Rejected e).

(** ** The FFI layer *)

(** [ffi.Callback(retType, argTypes, fn)].  The callbacks of this code take
    the command handle, the error code and at most one result field; a
    two-argument callback ignores the third component. *)
Record FFICallback : Type := Callback {
  cb_ret : string;
  cb_args : list string;
  cb_fn : Z -> Z -> JsValue -> Heap -> Heap
}.

(** One call that reached the native library through the bridge. *)
Record NativeCall : Type := mkNativeCall {
  nc_name : string;
  nc_handle : Z;
  nc_args : list JsValue;
  nc_status : Z;
  nc_cb : FFICallback
}.

Record World : Type := mkWorld {
  heap : Heap;
  calls : list NativeCall;
  clock : nat
}.

(** What the wrapper cannot decide by itself. *)
Record Env : Type := mkEnv {
  (** [initRustAPI(path)]: [Some e] when loading throws [e]. *)
  load_error : option string -> option JsValue;
  (** immediate status of the native call made at a given clock tick *)
  native_status : nat -> string -> list JsValue -> Z;
  (** [VCXBase.errorMessage(err)] *)
  VCXBase_errorMessage : JsValue -> string;
  (** [JSON.stringify(x)], for the values it returns on; a value it throws
      on (a cyclic [tags], say) makes the executor throw before the native
      call, a path that is left out here *)
  JSON_stringify : JsValue -> JsValue
}.

(** ** A state and exception monad for the synchronous parts *)

Definition M (A : Type) : Type := World -> (A + JsValue) * World.

Definition throw {A} (e : JsValue) : M A := fun w => (inr e, w).

#[export] Instance M_ret : MRet M := fun A a w => (inl a, w).
#[export] Instance M_bind : MBind M := fun A B k m w =>
  match m w with
  | (inl a, w') => k a w'
  | (inr e, w') => (inr e, w')
  end.

(** Running a [resolve] or [reject] call. *)
Definition run (f : Heap -> Heap) : M unit :=
  fun w => (inl tt, {| heap := f (heap w); calls := calls w; clock := clock w |}).

Definition skip : M unit := mret tt.

(** ** Structured errors *)

(** Modelled from the spec: the class [VCXInternalError] of [../errors],
    which is not among the source files.  Section 6 gives its shape,
    [{code, message, nativeFunctionName}]; the test of [initVcx] reads the
    code as [vcxCode].  The constructor keeps what the call site hands it;
    an argument the call site leaves out is absent. *)
Record VCXInternalError : Type := new_VCXInternalError {
  vcxCode : JsValue;
  message : option string;
  nativeFunctionName : option string
}.

(** ** Operation arguments *)

Record IInitVCXOptions : Type := { libVCXPath : option string }.

(** The default value [{}] of the [options] parameter. *)
Definition no_options : IInitVCXOptions := {| libVCXPath := None |}.

Module IRecord.
Record t : Type := make { type_ : string; id : string; value : JsValue; tags : JsValue }.
End IRecord.

Record IUpdateInstitutionConfigs : Type := { name : string; logoUrl : string }.
Record IDownloadMessagesConfigs : Type :=
  { status : string; uids : string; pairwiseDids : string }.
Record IUpdateMessagesConfigs : Type := { msgJson : string }.

(** ** Asynchronous functions *)

(** An [async] function suspended at the [await] inside its [try] block:
    the promise it waits for, what it does with the awaited value, and its
    [catch] handler. *)
Record Task : Type := mkTask {
  awaited : nat;
  after_await : JsValue -> JsValue;
  on_catch : JsValue -> VCXInternalError
}.

(** The state of the promise an [async] function returned. *)
Inductive Async : Type :=
| Suspended (t : Task)
| Failed (e : VCXInternalError).

Inductive Outcome : Type :=
| StillPending
| Returned (v : JsValue)
| Threw (e : VCXInternalError).

(** [return await p] hands the awaited value on; a bare [await p] as the
    last statement of the [try] block lets the function return
    [undefined]. *)
Definition return_await (m : M nat) : M (nat * (JsValue -> JsValue)) :=
  p ← m; mret (p, fun v => v).

Definition await_only (m : M nat) : M (nat * (JsValue -> JsValue)) :=
  p ← m; mret (p, fun _ => VUndefined).

(** [try { body } catch (err) { throw handler(err) }] around a body that
    ends in an [await]. *)
Definition try_catch (body : M (nat * (JsValue -> JsValue)))
    (handler : JsValue -> VCXInternalError) : World -> Async * World :=
  fun w => match body w with
           | (inl (p, k), w') =>
               (Suspended {| awaited := p; after_await := k; on_catch := handler |}, w')
           | (inr e, w') => (Failed (handler e), w')
           end.

(** Where an [async] function stands, given the promise heap. *)
Definition outcome (a : Async) (h : Heap) : Outcome :=
  match a with
  | Failed e => Threw e
  | Suspended t =>
      match states h !! awaited t with
      | Some (Fulfilled v) => Returned (after_await t v)
      | Some (Rejected e) => Threw (on_catch t e)
      | _ => StillPending
      end
  end.

(** ** The bridge and the domain operations *)

Section Wrapper.

Context (E : Env).

(** Modelled from the spec: [initRustAPI] of [../rustlib], which is not
    among the source files.  A load request names a library path and
    either installs the process-wide binding or fails; whether loading
    fails, and with which thrown value, is left to the environment. *)
Definition initRustAPI (path : option string) : M unit :=
  match load_error E path with
  | Some e => throw e
  | None => mret tt
  end.

(** [rustAPI().name(commandHandle, ...args, cb)]: the native entry point
    receives the callback, which it may invoke later, and answers with
    its immediate status.  [rustAPI()] is taken to return the loaded
    interface. *)
Definition rustAPI (name : string) (commandHandle : Z) (args : list JsValue)
    (cb : FFICallback) : M Z :=
  fun w =>
    let rc := native_status E (clock w) name (VNum commandHandle :: args) in
    (inl rc, {| heap := heap w;
                calls := calls w ++ [mkNativeCall name commandHandle args rc cb];
                clock := S (clock w) |}).

(** Modelled from the spec: [createFFICallbackPromise] of
    [../utils/ffi-helpers], which is not among the source files, after
    the callback bridge of section 4.1 and the way the call sites use it.
    A pending promise is created first; its [resolve] and [reject] are
    handed to the callback maker and, with the callback made, to the
    executor, which performs the native call.  An executor that throws
    rejects the promise, as in every promise constructor. *)
Definition createFFICallbackPromise
    (fn : Resolver -> Resolver -> FFICallback -> M unit)
    (cbMaker : Resolver -> Resolver -> FFICallback) : M nat :=
  fun w =>
    let p := length (states (heap w)) in
    let resolve := resolve_of p in
    let reject := reject_of p in
    let w0 := {| heap := {| states := states (heap w) ++ [Pending];
                           attempts := attempts (heap w) |};
                 calls := calls w; clock := clock w |} in
    match fn resolve reject (cbMaker resolve reject) w0 with
    | (inl _, w1) => (inl p, w1)
    | (inr e, w1) =>
        (inl p, {| heap := reject e (heap w1); calls := calls w1; clock := clock w1 |})
    end.

(** *** utils.ts *)

Definition provisionAgent (configAgent : string) (options : IInitVCXOptions)
    : World -> Async * World :=
  try_catch
    (_ ← initRustAPI (libVCXPath options);
     return_await (createFFICallbackPromise
       (fun resolve reject cb =>
          rc ← rustAPI "vcx_agent_provision_async" 0 [VStr configAgent] cb;
          if truthy rc then run (reject (VNum rc)) else skip)
       (fun resolve reject => Callback "void" ["uint32"; "uint32"; "string"]
          (fun xhandle err config =>
             if truthy err then reject (VNum err) else resolve config))))
    (fun err => new_VCXInternalError err None None).

Definition updateAgentInfo (options : string) : World -> Async * World :=
  try_catch
    (return_await (createFFICallbackPromise
       (fun resolve reject cb =>
          rc ← rustAPI "vcx_agent_update_info" 0 [VStr options] cb;
          if truthy rc then run (reject (VNum rc)) else skip)
       (fun resolve reject => Callback "void" ["uint32"; "uint32"; "string"]
          (fun xhandle err config =>
             if truthy err then reject (VNum err) else resolve config))))
    (fun err => new_VCXInternalError err None None).

Definition getLedgerFees : World -> Async * World :=
  try_catch
    (return_await (createFFICallbackPromise
       (fun resolve reject cb =>
          rc ← rustAPI "vcx_ledger_get_fees" 0 [] cb;
          if truthy rc then run (reject (VNum rc)) else skip)
       (fun resolve reject => Callback "void" ["uint32"; "uint32"; "string"]
          (fun xhandle err fees =>
             if truthy err then reject (VNum err) else resolve fees))))
    (fun err => new_VCXInternalError err None None).

(** [updateInstitutionConfigs] is synchronous: no command handle, no
    callback, no promise. *)
Definition updateInstitutionConfigs (c : IUpdateInstitutionConfigs)
    : World -> (Z + VCXInternalError) * World :=
  fun w =>
    let rc := native_status E (clock w) "vcx_update_institution_info"
                [VStr (name c); VStr (logoUrl c)] in
    let w' := {| heap := heap w; calls := calls w; clock := S (clock w) |} in
    if truthy rc
    then (inr (new_VCXInternalError (VNum rc) None None), w')
    else (inl rc, w').

Definition downloadMessages (c : IDownloadMessagesConfigs) : World -> Async * World :=
  try_catch
    (return_await (createFFICallbackPromise
       (fun resolve reject cb =>
          rc ← rustAPI "vcx_messages_download" 0
                 [VStr (status c); VStr (uids c); VStr (pairwiseDids c)] cb;
          if truthy rc then run (reject (VNum rc)) else skip)
       (fun resolve reject => Callback "void" ["uint32"; "uint32"; "string"]
          (fun xhandle err messages =>
             if truthy err then reject (VNum err) else resolve messages))))
    (fun err => new_VCXInternalError err None None).

Definition updateMessages (c : IUpdateMessagesConfigs) : World -> Async * World :=
  try_catch
    (return_await (createFFICallbackPromise
       (fun resolve reject cb =>
          rc ← rustAPI "vcx_messages_update_status" 0
                 [VStr "MS-106"; VStr (msgJson c)] cb;
          if truthy rc then run (reject (VNum rc)) else skip)
       (fun resolve reject => Callback "void" ["uint32"; "uint32"]
          (fun xhandle err _ =>
             if truthy err then reject (VNum err) else resolve (VNum err)))))
    (fun err => new_VCXInternalError err None None).

(** *** wallet.ts *)

Definition getTokenInfo (handle : Z) : World -> Async * World :=
  try_catch
    (return_await (createFFICallbackPromise
       (fun resolve reject cb =>
          rc ← rustAPI "vcx_wallet_get_token_info" 0 [VNum handle] cb;
          if truthy rc then run (reject (VNum rc)) else skip)
       (fun resolve reject => Callback "void" ["uint32"; "uint32"; "string"]
          (fun xhandle err info =>
             if truthy err then reject (VNum err) else resolve info))))
    (fun err => new_VCXInternalError err (Some (VCXBase_errorMessage E err))
                  (Some "vcx_wallet_get_token_info")).

Definition sendTokens (payment tokens : Z) (recipient : string)
    : World -> Async * World :=
  try_catch
    (return_await (createFFICallbackPromise
       (fun resolve reject cb =>
          rc ← rustAPI "vcx_wallet_send_tokens" 0
                 [VNum payment; VNum tokens; VStr recipient] cb;
          if truthy rc then run (reject (VNum rc)) else skip)
       (fun resolve reject => Callback "void" ["uint32"; "uint32"; "string"]
          (fun xhandle err receipt =>
             if truthy err then reject (VNum err) else resolve receipt))))
    (fun err => new_VCXInternalError err (Some (VCXBase_errorMessage E err))
                  (Some "vcx_wallet_send_tokens")).

Definition addRecord (record : IRecord.t) : World -> Async * World :=
  let commandHandle := 0%Z in
  try_catch
    (await_only (createFFICallbackPromise
       (fun resolve reject cb =>
          rc ← rustAPI "vcx_wallet_add_record" commandHandle
                 [VStr (IRecord.type_ record); VStr (IRecord.id record);
                  IRecord.value record; JSON_stringify E (IRecord.tags record)] cb;
          if truthy rc then run (reject (VNum rc)) else skip)
       (fun resolve reject => Callback "void" ["uint32"; "uint32"; "string"]
          (fun xhandle err receipt =>
             if truthy err then reject (VNum err) else resolve receipt))))
    (fun err => new_VCXInternalError err (Some (VCXBase_errorMessage E err))
                  (Some "vcx_wallet_add_record")).

Definition updateRecordValue (record : IRecord.t) : World -> Async * World :=
  let commandHandle := 0%Z in
  try_catch
    (await_only (createFFICallbackPromise
       (fun resolve reject cb =>
          rc ← rustAPI "vcx_wallet_update_record_value" commandHandle
                 [VStr (IRecord.type_ record); VStr (IRecord.id record);
                  IRecord.value record] cb;
          if truthy rc then run (reject (VNum rc)) else skip)
       (fun resolve reject => Callback "void" ["uint32"; "uint32"; "string"]
          (fun xhandle err receipt =>
             if truthy err then reject (VNum err) else resolve receipt))))
    (fun err => new_VCXInternalError err (Some (VCXBase_errorMessage E err))
                  (Some "vcx_wallet_wallet_update_value")).

Definition updateRecordTags (record : IRecord.t) : World -> Async * World :=
  let commandHandle := 0%Z in
  try_catch
    (await_only (createFFICallbackPromise
       (fun resolve reject cb =>
          rc ← rustAPI "vcx_wallet_update_record_tags" commandHandle
                 [VStr (IRecord.type_ record); VStr (IRecord.id record);
                  JSON_stringify E (IRecord.tags record)] cb;
          if truthy rc then run (reject (VNum rc)) else skip)
       (fun resolve reject => Callback "void" ["uint32"; "uint32"; "string"]
          (fun xhandle err receipt =>
             if truthy err then reject (VNum err) else resolve receipt))))
    (fun err => new_VCXInternalError err (Some (VCXBase_errorMessage E err))
                  (Some "vcx_wallet_wallet_update_tags")).

Definition addRecordTags (record : IRecord.t) : World -> Async * World :=
  let commandHandle := 0%Z in
  try_catch
    (await_only (createFFICallbackPromise
       (fun resolve reject cb =>
          rc ← rustAPI "vcx_wallet_add_record_tags" commandHandle
                 [VStr (IRecord.type_ record); VStr (IRecord.id record);
                  JSON_stringify E (IRecord.tags record)] cb;
          if truthy rc then run (reject (VNum rc)) else skip)
       (fun resolve reject => Callback "void" ["uint32"; "uint32"; "string"]
          (fun xhandle err receipt =>
             if truthy err then reject (VNum err) else resolve receipt))))
    (fun err => new_VCXInternalError err (Some (VCXBase_errorMessage E err))
                  (Some "vcx_wallet_wallet_update_tags")).

Definition deleteRecordTags (record : IRecord.t) (tagList : list string)
    : World -> Async * World :=
  let commandHandle := 0%Z in
  try_catch
    (await_only (createFFICallbackPromise
       (fun resolve reject cb =>
          rc ← rustAPI "vcx_wallet_delete_record_tags" commandHandle
                 [VStr (IRecord.type_ record); VStr (IRecord.id record);
                  JSON_stringify E (VStrings tagList)] cb;
          if truthy rc then run (reject (VNum rc)) else skip)
       (fun resolve reject => Callback "void" ["uint32"; "uint32"; "string"]
          (fun xhandle err receipt =>
             if truthy err then reject (VNum err) else resolve receipt))))
    (fun err => new_VCXInternalError err (Some (VCXBase_errorMessage E err))
                  (Some "vcx_wallet_wallet_update_tags")).

Definition deleteRecord (type id : string) : World -> Async * World :=
  let commandHandle := 0%Z in
  try_catch
    (await_only (createFFICallbackPromise
       (fun resolve reject cb =>
          rc ← rustAPI "vcx_wallet_delete_record" commandHandle
                 [VStr type; VStr id] cb;
          if truthy rc then run (reject (VNum rc)) else skip)
       (fun resolve reject => Callback "void" ["uint32"; "uint32"; "string"]
          (fun xhandle err receipt =>
             if truthy err then reject (VNum err) else resolve receipt))))
    (fun err => new_VCXInternalError err (Some (VCXBase_errorMessage E err))
                  (Some "vcx_wallet_delete_record")).

Definition getRecord (type id : string) : World -> Async * World :=
  let commandHandle := 0%Z in
  try_catch
    (return_await (createFFICallbackPromise
       (fun resolve reject cb =>
          rc ← rustAPI "vcx_wallet_get_record" commandHandle
                 [VStr type; VStr id] cb;
          if truthy rc then run (reject (VNum rc)) else skip)
       (fun resolve reject => Callback "void" ["uint32"; "uint32"; "string"]
          (fun xhandle err info =>
             if truthy err then reject (VNum err) else resolve info))))
    (fun err => new_VCXInternalError err (Some (VCXBase_errorMessage E err))
                  (Some "vcx_wallet_get_record")).

Definition openSearch (type queryJson options : string) : World -> Async * World :=
  let commandHandle := 0%Z in
  try_catch
    (return_await (createFFICallbackPromise
       (fun resolve reject cb =>
          rc ← rustAPI "vcx_wallet_open_search" commandHandle
                 [VStr type; VStr queryJson; VStr options] cb;
          if truthy rc then run (reject (VNum rc)) else skip)
       (fun resolve reject => Callback "void" ["uint32"; "uint32"; "uint32"]
          (fun xhandle err handle =>
             if truthy err then reject (VNum err) else resolve handle))))
    (fun err => new_VCXInternalError err (Some (VCXBase_errorMessage E err))
                  (Some "vcx_wallet_open_search")).

Definition closeSearch (handle : Z) : World -> Async * World :=
  let commandHandle := 0%Z in
  try_catch
    (await_only (createFFICallbackPromise
       (fun resolve reject cb =>
          rc ← rustAPI "vcx_wallet_close_search" commandHandle [VNum handle] cb;
          if truthy rc then run (reject (VNum rc)) else skip)
       (fun resolve reject => Callback "void" ["uint32"; "uint32"]
          (fun xhandle err _ =>
             if truthy err then reject (VNum err) else resolve (VNum handle)))))
    (fun err => new_VCXInternalError err (Some (VCXBase_errorMessage E err))
                  (Some "vcx_wallet_open_search")).

Definition searchNextRecords (handle count : Z) : World -> Async * World :=
  let commandHandle := 0%Z in
  try_catch
    (return_await (createFFICallbackPromise
       (fun resolve reject cb =>
          rc ← rustAPI "vcx_wallet_search_next_records" commandHandle
                 [VNum handle; VNum count] cb;
          if truthy rc then run (reject (VNum rc)) else skip)
       (fun resolve reject => Callback "void" ["uint32"; "uint32"; "string"]
          (fun xhandle err info =>
             if truthy err then reject (VNum err) else resolve info))))
    (fun err => new_VCXInternalError err (Some (VCXBase_errorMessage E err))
                  (Some "vcx_wallet_search_next_records")).

(** *** Calls and traces *)

(** A domain operation together with its arguments. *)
Inductive Call : Type :=
| CProvisionAgent (configAgent : string) (options : IInitVCXOptions)
| CUpdateAgentInfo (options : string)
| CGetLedgerFees
| CDownloadMessages (c : IDownloadMessagesConfigs)
| CUpdateMessages (c : IUpdateMessagesConfigs)
| CGetTokenInfo (handle : Z)
| CSendTokens (payment tokens : Z) (recipient : string)
| CAddRecord (record : IRecord.t)
| CUpdateRecordValue (record : IRecord.t)
| CUpdateRecordTags (record : IRecord.t)
| CAddRecordTags (record : IRecord.t)
| CDeleteRecordTags (record : IRecord.t) (tagList : list string)
| CDeleteRecord (type id : string)
| CGetRecord (type id : string)
| COpenSearch (type queryJson options : string)
| CCloseSearch (handle : Z)
| CSearchNextRecords (handle count : Z).

Definition invoke (c : Call) : World -> Async * World :=
  match c with
  | CProvisionAgent configAgent options => provisionAgent configAgent options
  | CUpdateAgentInfo options => updateAgentInfo options
  | CGetLedgerFees => getLedgerFees
  | CDownloadMessages c => downloadMessages c
  | CUpdateMessages c => updateMessages c
  | CGetTokenInfo handle => getTokenInfo handle
  | CSendTokens payment tokens recipient => sendTokens payment tokens recipient
  | CAddRecord record => addRecord record
  | CUpdateRecordValue record => updateRecordValue record
  | CUpdateRecordTags record => updateRecordTags record
  | CAddRecordTags record => addRecordTags record
  | CDeleteRecordTags record tagList => deleteRecordTags record tagList
  | CDeleteRecord type id => deleteRecord type id
  | CGetRecord type id => getRecord type id
  | COpenSearch type queryJson options => openSearch type queryJson options
  | CCloseSearch handle => closeSearch handle
  | CSearchNextRecords handle count => searchNextRecords handle count
  end.

End Wrapper.

(** ** What each operation hands to the bridge *)

(** The tables below summarise the operations; [invoke_submitted] proves
    that the operations, as written above, agree with them. *)

Definition native_entry (c : Call) : string :=
  match c with
  | CProvisionAgent _ _ => "vcx_agent_provision_async"
  | CUpdateAgentInfo _ => "vcx_agent_update_info"
  | CGetLedgerFees => "vcx_ledger_get_fees"
  | CDownloadMessages _ => "vcx_messages_download"
  | CUpdateMessages _ => "vcx_messages_update_status"
  | CGetTokenInfo _ => "vcx_wallet_get_token_info"
  | CSendTokens _ _ _ => "vcx_wallet_send_tokens"
  | CAddRecord _ => "vcx_wallet_add_record"
  | CUpdateRecordValue _ => "vcx_wallet_update_record_value"
  | CUpdateRecordTags _ => "vcx_wallet_update_record_tags"
  | CAddRecordTags _ => "vcx_wallet_add_record_tags"
  | CDeleteRecordTags _ _ => "vcx_wallet_delete_record_tags"
  | CDeleteRecord _ _ => "vcx_wallet_delete_record"
  | CGetRecord _ _ => "vcx_wallet_get_record"
  | COpenSearch _ _ _ => "vcx_wallet_open_search"
  | CCloseSearch _ => "vcx_wallet_close_search"
  | CSearchNextRecords _ _ => "vcx_wallet_search_next_records"
  end.

Definition native_args (E : Env) (c : Call) : list JsValue :=
  match c with
  | CProvisionAgent configAgent _ => [VStr configAgent]
  | CUpdateAgentInfo options => [VStr options]
  | CGetLedgerFees => []
  | CDownloadMessages c => [VStr (status c); VStr (uids c); VStr (pairwiseDids c)]
  | CUpdateMessages c => [VStr "MS-106"; VStr (msgJson c)]
  | CGetTokenInfo handle => [VNum handle]
  | CSendTokens payment tokens recipient => [VNum payment; VNum tokens; VStr recipient]
  | CAddRecord r =>
      [VStr (IRecord.type_ r); VStr (IRecord.id r); IRecord.value r;
       JSON_stringify E (IRecord.tags r)]
  | CUpdateRecordValue r => [VStr (IRecord.type_ r); VStr (IRecord.id r); IRecord.value r]
  | CUpdateRecordTags r | CAddRecordTags r =>
      [VStr (IRecord.type_ r); VStr (IRecord.id r); JSON_stringify E (IRecord.tags r)]
  | CDeleteRecordTags r tagList =>
      [VStr (IRecord.type_ r); VStr (IRecord.id r); JSON_stringify E (VStrings tagList)]
  | CDeleteRecord type id | CGetRecord type id => [VStr type; VStr id]
  | COpenSearch type queryJson options => [VStr type; VStr queryJson; VStr options]
  | CCloseSearch handle => [VNum handle]
  | CSearchNextRecords handle count => [VNum handle; VNum count]
  end.

(** The argument types of the completion callback. *)
Definition cb_signature (c : Call) : list string :=
  match c with
  | CUpdateMessages _ | CCloseSearch _ => ["uint32"; "uint32"]
  | COpenSearch _ _ _ => ["uint32"; "uint32"; "uint32"]
  | _ => ["uint32"; "uint32"; "string"]
  end.

(** The callback has a third parameter: the native layer delivers a
    payload. *)
Definition has_payload (c : Call) : bool :=
  match c with
  | CUpdateMessages _ | CCloseSearch _ => false
  | _ => true
  end.

(** What the callback passes to [resolve] on its success branch. *)
Definition resolved_with (c : Call) (err : Z) (payload : JsValue) : JsValue :=
  match c with
  | CUpdateMessages _ => VNum err
  | CCloseSearch handle => VNum handle
  | _ => payload
  end.

(** The operation ends in [return await] (or returns the awaited value
    right after), as opposed to a bare [await]. *)
Definition returns_value (c : Call) : bool :=
  match c with
  | CAddRecord _ | CUpdateRecordValue _ | CUpdateRecordTags _ | CAddRecordTags _
  | CDeleteRecordTags _ _ | CDeleteRecord _ _ | CCloseSearch _ => false
  | _ => true
  end.

(** The operations of wallet.ts, whose [catch] blocks pass a message and a
    function name to the error constructor. *)
Definition is_wallet (c : Call) : bool :=
  match c with
  | CProvisionAgent _ _ | CUpdateAgentInfo _ | CGetLedgerFees
  | CDownloadMessages _ | CUpdateMessages _ => false
  | _ => true
  end.

(** The function name written in the [catch] block. *)
Definition catch_label (c : Call) : option string :=
  match c with
  | CProvisionAgent _ _ | CUpdateAgentInfo _ | CGetLedgerFees
  | CDownloadMessages _ | CUpdateMessages _ => None
  | CGetTokenInfo _ => Some "vcx_wallet_get_token_info"
  | CSendTokens _ _ _ => Some "vcx_wallet_send_tokens"
  | CAddRecord _ => Some "vcx_wallet_add_record"
  | CUpdateRecordValue _ => Some "vcx_wallet_wallet_update_value"
  | CUpdateRecordTags _ | CAddRecordTags _ | CDeleteRecordTags _ _ =>
      Some "vcx_wallet_wallet_update_tags"
  | CDeleteRecord _ _ => Some "vcx_wallet_delete_record"
  | CGetRecord _ _ => Some "vcx_wallet_get_record"
  | COpenSearch _ _ _ | CCloseSearch _ => Some "vcx_wallet_open_search"
  | CSearchNextRecords _ _ => Some "vcx_wallet_search_next_records"
  end.

(** The wallet operations whose [catch] label is the entry point they
    call. *)
Definition label_is_entry (c : Call) : bool :=
  match c with
  | CGetTokenInfo _ | CSendTokens _ _ _ | CAddRecord _ | CDeleteRecord _ _
  | CGetRecord _ _ | COpenSearch _ _ _ | CSearchNextRecords _ _ => true
  | _ => false
  end.

Definition error_of (E : Env) (c : Call) (err : JsValue) : VCXInternalError :=
  if is_wallet c
  then new_VCXInternalError err (Some (VCXBase_errorMessage E err)) (catch_label c)
  else new_VCXInternalError err None None.

(** The error thrown by [initRustAPI], for the one operation that calls
    it. *)
Definition load_failure (E : Env) (c : Call) : option JsValue :=
  match c with
  | CProvisionAgent _ options => load_error E (libVCXPath options)
  | _ => None
  end.

Definition immediate_status (E : Env) (c : Call) (w : World) : Z :=
  native_status E (clock w) (native_entry c) (VNum 0 :: native_args E c).

Definition callback_of (c : Call) (p : nat) : FFICallback :=
  Callback "void" (cb_signature c)
    (fun _ err payload =>
       if truthy err then reject_of p (VNum err)
       else resolve_of p (resolved_with c err payload)).

Definition task_of (E : Env) (c : Call) (p : nat) : Task :=
  {| awaited := p;
     after_await := if returns_value c then (fun v => v) else (fun _ => VUndefined);
     on_catch := error_of E c |}.

(** The identifier of the next promise to be created. *)
Definition fresh (w : World) : nat := length (states (heap w)).

Definition submitted (E : Env) (c : Call) (w : World) : World :=
  let p := fresh w in
  let rc := immediate_status E c w in
  let h := {| states := states (heap w) ++ [Pending]; attempts := attempts (heap w) |} in
  {| heap := if truthy rc then reject_of p (VNum rc) h else h;
     calls := calls w ++ [mkNativeCall (native_entry c) 0 (native_args E c) rc (callback_of c p)];
     clock := S (clock w) |}.

(** ** The native layer at work *)

Inductive Event : Type :=
| Submit (c : Call)
| Deliver (i : nat) (xhandle err : Z) (payload : JsValue).

(** The wrapper and its callers: the world, the asynchronous functions
    started so far, and the log of callback invocations. *)
Record System : Type := mkSystem {
  world : World;
  tasks : list Async;
  delivered : list nat
}.

Definition init : System :=
  {| world := {| heap := {| states := []; attempts := [] |}; calls := []; clock := 0 |};
     tasks := [];
     delivered := [] |}.

(** The native layer invokes the callback it received with its [i]-th
    call. *)
Definition deliver (i : nat) (xhandle err : Z) (payload : JsValue) (w : World) : World :=
  match calls w !! i with
  | Some nc => {| heap := cb_fn (nc_cb nc) xhandle err payload (heap w);
                  calls := calls w; clock := clock w |}
  | None => w
  end.

Definition step (E : Env) (s : System) (e : Event) : System :=
  match e with
  | Submit c =>
      let (a, w') := invoke E c (world s) in
      {| world := w'; tasks := tasks s ++ [a]; delivered := delivered s |}
  | Deliver i xhandle err payload =>
      {| world := deliver i xhandle err payload (world s);
         tasks := tasks s;
         delivered := delivered s ++ [i] |}
  end.

Definition exec (E : Env) (evs : list Event) (s : System) : System :=
  fold_left (step E) evs s.

(** The native protocol: a callback is invoked only for a call whose
    immediate status was 0, and at most once. *)
Definition allowed (s : System) (e : Event) : bool :=
  match e with
  | Submit _ => true
  | Deliver i _ _ _ =>
      bool_decide (i ∉ delivered s) &&
      match calls (world s) !! i with
      | Some nc => negb (truthy (nc_status nc))
      | None => false
      end
  end.

Fixpoint obeys (E : Env) (s : System) (evs : list Event) : bool :=
  match evs with
  | [] => true
  | e :: evs' => allowed s e && obeys E (step E s e) evs'
  end.

Definition delivers_to (i : nat) (e : Event) : bool :=
  match e with
  | Deliver j _ _ _ => bool_decide (j = i)
  | Submit _ => false
  end.

(** The number of [resolve] and [reject] calls made on promise [p]. *)
Definition attempts_on (p : nat) (h : Heap) : nat :=
  length (filter (fun a => a.1 = p) (attempts h)).

(** The first [resolve] or [reject] call made on promise [p], if any. *)
Definition first_attempt (p : nat) (h : Heap) : option PromiseState :=
  snd <$> head (filter (fun a => a.1 = p) (attempts h)).

Definition promise_of (a : Async) : option nat :=
  match a with
  | Suspended t => Some (awaited t)
  | Failed _ => None
  end.

(** The promise state of the [i]-th bridged call. *)
Definition promise (s : System) (i : nat) : option PromiseState :=
  states (heap (world s)) !! i.

(** ** Runs of one call *)

(** A call [c] submitted after the events [pre], followed by the events
    [post]. *)
Definition call_index (E : Env) (pre : list Event) : nat :=
  length (calls (world (exec E pre init))).

Definition status_at (E : Env) (pre : list Event) (c : Call) : Z :=
  immediate_status E c (world (exec E pre init)).

Definition after_call (E : Env) (pre : list Event) (c : Call) (post : list Event) : System :=
  exec E (Submit c :: post) (exec E pre init).

(** The promise [createFFICallbackPromise] made for the call. *)
Definition bridge_promise (E : Env) (pre : list Event) (c : Call) (post : list Event)
    : option PromiseState :=
  promise (after_call E pre c post) (call_index E pre).

(** What the caller of the operation observes. *)
Definition run_call (E : Env) (pre : list Event) (c : Call) (post : list Event) : Outcome :=
  outcome (invoke E c (world (exec E pre init))).1 (heap (world (after_call E pre c post))).

Definition undelivered (i : nat) (evs : list Event) : bool :=
  forallb (fun e => negb (delivers_to i e)) evs.

(** The operation resolves with the payload of a successful callback. *)
Definition resolves_with_payload (E : Env) (c : Call) : Prop :=
  ∀ pre mid post xhandle p,
    load_failure E c = None →
    status_at E pre c = 0%Z →
    undelivered (call_index E pre) mid = true →
    run_call E pre c (mid ++ Deliver (call_index E pre) xhandle 0 p :: post) = Returned p.

(** Every error the operation throws names the native entry point it
    called. *)
Definition names_failed_entry (E : Env) (c : Call) : Prop :=
  ∀ pre post e,
    run_call E pre c post = Threw e →
    nativeFunctionName e = Some (native_entry c).

(** ** Invariants *)

(** The values the wrapper settles a promise with: anything on success, a
    non-zero code on failure. *)
Definition code_settlement (s : PromiseState) : Prop :=
  match s with
  | Pending => False
  | Fulfilled _ => True
  | Rejected r => ∃ n, r = VNum n ∧ n ≠ 0%Z
  end.

(** A callback that does nothing but settle promise [p]. *)
Definition owns (cb : FFICallback) (p : nat) : Prop :=
  ∀ xhandle err payload h,
    ∃ s, code_settlement s ∧ cb_fn cb xhandle err payload h = settle p s h.

(** Every settlement attempt was made on an existing promise with a value
    the wrapper produces, and a promise holds what its first attempt
    gave it. *)
Record HeapInv (h : Heap) : Prop := mkHeapInv {
  hinv_attempts : ∀ p st, (p, st) ∈ attempts h →
    p < length (states h) ∧ code_settlement st;
  hinv_first : ∀ p, p < length (states h) →
    states h !! p = Some (default Pending (first_attempt p h))
}.

(** The [i]-th bridged call owns the [i]-th promise, passes the command
    handle 0 and carries the callback its operation makes; the suspended
    functions await the promises in order of creation. *)
Record Inv (E : Env) (s : System) : Prop := mkInv {
  inv_len : length (calls (world s)) = length (states (heap (world s)));
  inv_calls : ∀ i nc, calls (world s) !! i = Some nc →
    ∃ c, nc = mkNativeCall (native_entry c) 0 (native_args E c) (nc_status nc)
                (callback_of c i);
  inv_tasks : omap promise_of (tasks s) = seq 0 (length (states (heap (world s))));
  inv_heap : HeapInv (heap (world s))
}.

(** The [i]-th call has been answered: its status was a failure, or its
    callback was invoked. *)
Definition completed (s : System) (i : nat) : bool :=
  match calls (world s) !! i with
  | Some nc => truthy (nc_status nc) || bool_decide (i ∈ delivered s)
  | None => false
  end.

(** Pending calls are told apart by the command handle they passed to the
    native layer. *)
Definition tokens_unique (s : System) : Prop :=
  ∀ i j nci ncj,
    calls (world s) !! i = Some nci →
    calls (world s) !! j = Some ncj →
    promise s i = Some Pending →
    promise s j = Some Pending →
    nc_handle nci = nc_handle ncj →
    i = j.

(** The states the callback of operation [c] can leave its promise in. *)
Definition bridge_result (c : Call) (st : option PromiseState) : Prop :=
  st = Some Pending ∨
  (∃ n, n ≠ 0%Z ∧ st = Some (Rejected (VNum n))) ∨
  (∃ payload, st = Some (Fulfilled (resolved_with c 0 payload))).

(** Under the native protocol every call has seen exactly one [resolve]
    or [reject] once it is completed and none before; callbacks were
    invoked for logged calls only. *)
Record ProtocolInv (s : System) : Prop := mkProtocolInv {
  pinv_attempts : ∀ i,
    attempts_on i (heap (world s)) = if completed s i then 1 else 0;
  pinv_delivered : ∀ i, i ∈ delivered s → i < length (calls (world s))
}.

(** ** Environments for examples *)

(** A native layer whose calls answer with the statuses of [script], in
    order, and with 0 once the script is exhausted. *)
Definition scripted (script : list Z) : Env :=
  {| load_error := fun _ => None;
     native_status := fun tick _ _ => nth tick script 0%Z;
     VCXBase_errorMessage := fun _ => "error";
     JSON_stringify := fun _ => VStr "{}" |}.

Definition record0 : IRecord.t :=
  IRecord.make "type" "id" (VStr "value") (VObject 0).

(** ** The runtime binding *)

Module RuntimeBinding.

(** Modelled from the spec: the runtime binding of section 4.4, whose code
    ([initVcx], [VCXRuntime], [../rustlib]) is not among the source files;
    only its test and one caller are. *)
Inductive State : Type :=
| Uninitialized
| Initializing (path : string)
| Ready (path : string)
| ShuttingDown.

Inductive Error : Type :=
| InvalidConfiguration
| NotInitialized.

(** Modelled from the spec: the configuration [{ libraryPath }]; an absent
    or null path is [None]. *)
Record Configuration : Type := { libraryPath : option string }.

(** Modelled from the spec: [Uninitialized → Initializing], a load request
    names a library path and fails with [InvalidConfiguration] if the path
    is empty or null. *)
Definition request (cfg : Configuration) (st : State) : Error + State :=
  match st with
  | Uninitialized =>
      match libraryPath cfg with
      | None => inl InvalidConfiguration
      | Some p => if String.eqb p "" then inl InvalidConfiguration else inr (Initializing p)
      end
  | _ => inr st
  end.

(** Modelled from the spec: [Initializing → Ready] when the load succeeds;
    a library that cannot be loaded or linked fails the request with
    [InvalidConfiguration]. *)
Definition link (loadable : string -> bool) (st : State) : Error + State :=
  match st with
  | Initializing p => if loadable p then inr (Ready p) else inl InvalidConfiguration
  | _ => inr st
  end.

(** Modelled from the spec: initialization as a whole.  A failure at
    either stage leaves the binding as it was before the request. *)
Definition initialize (loadable : string -> bool) (cfg : Configuration) (st : State)
    : State * option Error :=
  match request cfg st with
  | inl e => (st, Some e)
  | inr st1 =>
      match link loadable st1 with
      | inl e => (st, Some e)
      | inr st2 => (st2, None)
      end
  end.

(** A path the binding cannot be initialized with. *)
Definition unusable (loadable : string -> bool) (cfg : Configuration) : bool :=
  match libraryPath cfg with
  | None => true
  | Some p => String.eqb p "" || negb (loadable p)
  end.

End RuntimeBinding.

(** ** One call seen from its callback *)

(** The state a promise is left in by its executor: rejected at once on a
    non-zero status, pending otherwise. *)
Definition submitted_state (rc : Z) : PromiseState :=
  if truthy rc then Rejected (VNum rc) else Pending.

(** One invocation of the callback of operation [c], as its promise sees
    it: a pending promise takes the branch the error code selects, a
    settled one stays as it is. *)
Definition react (c : Call) (st : PromiseState) (err : Z) (payload : JsValue)
    : PromiseState :=
  match st with
  | Pending =>
      if truthy err then Rejected (VNum err)
      else Fulfilled (resolved_with c err payload)
  | _ => st
  end.

(** The promise of the [i]-th call after the events [evs], computed from
    the callback invocations addressed to that call alone, in order. *)
Fixpoint replay (c : Call) (i : nat) (evs : list Event) (st : PromiseState)
    : PromiseState :=
  match evs with
  | [] => st
  | Deliver j _ err payload :: evs' =>
      replay c i evs' (if bool_decide (j = i) then react c st err payload else st)
  | Submit _ :: evs' => replay c i evs' st
  end.

(** The callback invocations of [evs] addressed to the [i]-th call. *)
Definition deliveries (i : nat) (evs : list Event) : list Event :=
  List.filter (delivers_to i) evs.

(** The same event with another command handle echoed to the callback. *)
Definition echo (f : Z -> Z) (e : Event) : Event :=
  match e with
  | Submit c => Submit c
  | Deliver i xhandle err payload => Deliver i (f xhandle) err payload
  end.

(** An environment in which loading the library throws [e]. *)
Definition unloadable (e : JsValue) : Env :=
  {| load_error := fun _ => Some e;
     native_status := fun _ _ _ => 0%Z;
     VCXBase_errorMessage := fun _ => "error";
     JSON_stringify := fun _ => VStr "{}" |}.

(** * Properties *)

(** ** Settling a promise *)

Lemma settle_length p s h : length (states (settle p s h)) = length (states h).
Proof.
  unfold settle; simpl.
  destruct (states h !! p) as [[| |]|]; auto using length_insert.
Qed.

Lemma settle_lookup_ne p q s h :
  q ≠ p → states (settle p s h) !! q = states h !! q.
Proof.
  intros Hne. unfold settle; simpl.
  destruct (states h !! p) as [[| |]|]; auto.
  apply list_lookup_insert_ne. congruence.
Qed.

Lemma settle_lookup_pending p s h :
  states h !! p = Some Pending → states (settle p s h) !! p = Some s.
Proof.
  intros Hp. unfold settle; simpl. rewrite Hp.
  apply list_lookup_insert_eq. eapply lookup_lt_Some; eauto.
Qed.

Lemma settle_lookup_settled p s st h :
  states h !! p = Some st → settled st = true →
  states (settle p s h) !! p = Some st.
Proof.
  intros Hp Hst. unfold settle; simpl. rewrite Hp.
  destruct st; simpl in Hst; try discriminate; exact Hp.
Qed.

Lemma settle_attempts p s h : attempts (settle p s h) = attempts h ++ [(p, s)].
Proof. reflexivity. Qed.

Lemma code_settlement_settled s : code_settlement s → settled s = true.
Proof. destruct s; simpl; intros H; auto; contradiction. Qed.

Lemma truthy_true n : truthy n = true ↔ n ≠ 0%Z.
Proof. unfold truthy. rewrite negb_true_iff. apply Z.eqb_neq. Qed.

Lemma truthy_false n : truthy n = false ↔ n = 0%Z.
Proof. unfold truthy. rewrite negb_false_iff. apply Z.eqb_eq. Qed.

(** ** The operations agree with their tables *)

Lemma invoke_submitted E c w :
  load_failure E c = None →
  invoke E c w = (Suspended (task_of E c (fresh w)), submitted E c w).
Proof.
  intros Hload.
  destruct c; simpl in Hload;
    cbv - [truthy native_status length app reject_of resolve_of
           VCXBase_errorMessage JSON_stringify load_error libVCXPath];
    rewrite ?Hload;
    match goal with
    | |- context [truthy ?rc] => destruct (truthy rc)
    end; reflexivity.
Qed.

Lemma invoke_load_failure E c w e :
  load_failure E c = Some e →
  invoke E c w = (Failed (new_VCXInternalError e None None), w).
Proof.
  intros Hload. destruct c; simpl in Hload; try discriminate.
  cbv [invoke provisionAgent try_catch initRustAPI mbind M_bind].
  rewrite Hload. reflexivity.
Qed.

(** ** The log of settlement attempts *)

Lemma first_attempt_settle p q s h :
  first_attempt p (settle q s h) =
  match first_attempt p h with
  | Some st => Some st
  | None => if decide (q = p) then Some s else None
  end.
Proof.
  unfold first_attempt. rewrite settle_attempts, filter_app.
  destruct (filter _ (attempts h)) as [|a l] eqn:Hf; simpl; [|reflexivity].
  rewrite filter_cons, filter_nil; simpl.
  destruct (decide (q = p)); reflexivity.
Qed.

Lemma first_attempt_elem p h st :
  first_attempt p h = Some st → (p, st) ∈ attempts h.
Proof.
  unfold first_attempt. intros H.
  destruct (head _) as [[q st']|] eqn:Hh; simpl in H; [|discriminate].
  injection H as ->.
  apply head_Some_elem_of, list_elem_of_filter in Hh as [Hq Hin].
  simpl in Hq. subst q. exact Hin.
Qed.

Lemma attempts_on_settle p q s h :
  attempts_on p (settle q s h) = attempts_on p h + (if decide (q = p) then 1 else 0).
Proof.
  unfold attempts_on. rewrite settle_attempts, filter_app, length_app.
  rewrite filter_cons, filter_nil; simpl.
  destruct (decide (q = p)); reflexivity.
Qed.

Lemma attempts_on_none p h :
  (∀ st, (p, st) ∉ attempts h) → attempts_on p h = 0.
Proof.
  intros Hno. unfold attempts_on.
  destruct (filter _ (attempts h)) as [|[q st] l] eqn:Hf; [reflexivity|].
  assert (Hin : (q, st) ∈ filter (λ a, a.1 = p) (attempts h))
    by (rewrite Hf; apply list_elem_of_here).
  apply list_elem_of_filter in Hin as [Hq Hin]. simpl in Hq. subst q.
  destruct (Hno st Hin).
Qed.

Lemma HeapInv_settle p s h :
  HeapInv h → p < length (states h) → code_settlement s → HeapInv (settle p s h).
Proof.
  intros [Hatt Hfirst] Hp Hs. split.
  - intros q st. rewrite settle_attempts, settle_length.
    intros [Hin | Hin%list_elem_of_singleton]%elem_of_app.
    + apply Hatt; exact Hin.
    + injection Hin as -> ->. auto.
  - intros q. rewrite settle_length. intros Hq.
    rewrite first_attempt_settle.
    destruct (decide (q = p)) as [->|Hne].
    + specialize (Hfirst p Hp).
      destruct (first_attempt p h) as [st|] eqn:Hfa; simpl in *.
      * apply first_attempt_elem, Hatt in Hfa as [_ Hcode].
        eapply settle_lookup_settled; eauto using code_settlement_settled.
      * rewrite decide_True by reflexivity. simpl.
        apply settle_lookup_pending; exact Hfirst.
    + rewrite settle_lookup_ne by exact Hne.
      rewrite (Hfirst q Hq).
      destruct (first_attempt q h); [reflexivity|].
      rewrite decide_False by congruence. reflexivity.
Qed.

Lemma HeapInv_extend h :
  HeapInv h →
  HeapInv {| states := states h ++ [Pending]; attempts := attempts h |}.
Proof.
  intros [Hatt Hfirst]. split; simpl.
  - intros p st Hin. destruct (Hatt p st Hin) as [Hlt Hcode].
    rewrite length_app; simpl. split; [lia | exact Hcode].
  - intros p. rewrite length_app; simpl. intros Hp.
    change (first_attempt p {| states := states h ++ [Pending]; attempts := attempts h |})
      with (first_attempt p h).
    destruct (decide (p < length (states h))) as [Hlt|Hge].
    + rewrite lookup_app_l by exact Hlt. apply Hfirst; exact Hlt.
    + assert (p = length (states h)) as -> by lia.
      rewrite list_lookup_middle by reflexivity.
      destruct (first_attempt (length (states h)) h) as [st|] eqn:Hfa; [|reflexivity].
      apply first_attempt_elem, Hatt in Hfa as [Hlt _]. lia.
Qed.

Lemma callback_of_owns c p : owns (callback_of c p) p.
Proof.
  intros xhandle err payload h. simpl.
  destruct (truthy err) eqn:Herr.
  - exists (Rejected (VNum err)). split; [|reflexivity].
    simpl. exists err. split; [reflexivity|]. apply truthy_true; exact Herr.
  - exists (Fulfilled (resolved_with c err payload)). split; [exact I | reflexivity].
Qed.

(** ** The invariant of the running system *)

Section Invariant.

Context (E : Env).

Lemma submitted_states c w :
  length (states (heap (submitted E c w))) = S (length (states (heap w))).
Proof.
  unfold submitted; simpl.
  destruct (truthy _); unfold reject_of; rewrite ?settle_length; simpl;
    rewrite length_app; simpl; lia.
Qed.

Lemma submitted_HeapInv c w :
  HeapInv (heap w) → HeapInv (heap (submitted E c w)).
Proof.
  intros Hh. unfold submitted; simpl.
  destruct (truthy _) eqn:Hrc.
  - apply HeapInv_settle.
    + apply HeapInv_extend; exact Hh.
    + simpl. rewrite length_app; simpl. unfold fresh. lia.
    + simpl. eexists; split; [reflexivity|]. apply truthy_true; exact Hrc.
  - apply HeapInv_extend; exact Hh.
Qed.

Lemma submitted_lookup_old c w p :
  p < length (states (heap w)) →
  states (heap (submitted E c w)) !! p = states (heap w) !! p.
Proof.
  intros Hp. unfold submitted; simpl.
  destruct (truthy _); unfold reject_of.
  - rewrite settle_lookup_ne by (unfold fresh; lia). simpl.
    apply lookup_app_l; exact Hp.
  - simpl. apply lookup_app_l; exact Hp.
Qed.

Lemma submitted_lookup_new c w :
  states (heap (submitted E c w)) !! fresh w =
  Some (if truthy (immediate_status E c w)
        then Rejected (VNum (immediate_status E c w)) else Pending).
Proof.
  unfold submitted; simpl.
  destruct (truthy _); unfold reject_of.
  - apply settle_lookup_pending. simpl. apply list_lookup_middle. reflexivity.
  - simpl. apply list_lookup_middle. reflexivity.
Qed.

Lemma Inv_init : Inv E init.
Proof.
  split; simpl; try reflexivity.
  - intros i nc H. rewrite lookup_nil in H. discriminate.
  - split; simpl.
    + intros p st H. apply elem_of_nil in H. destruct H.
    + intros p Hp. lia.
Qed.

Lemma Inv_submit s c : Inv E s → Inv E (step E s (Submit c)).
Proof.
  intros [Hlen Hcalls Htasks Hheap]. simpl.
  destruct (load_failure E c) as [e|] eqn:Hload.
  - rewrite (invoke_load_failure _ _ _ _ Hload). split; simpl; auto.
    rewrite omap_app; simpl. rewrite app_nil_r. exact Htasks.
  - rewrite (invoke_submitted _ _ _ Hload). split; simpl.
    + rewrite length_app; simpl.
      pose proof (submitted_states c (world s)) as Hs. unfold submitted in Hs; simpl in Hs.
      rewrite Hs. lia.
    + intros i nc [Hold | [Hi Hnew]]%lookup_snoc_Some.
      * destruct Hold as [_ Hold]. apply Hcalls; exact Hold.
      * subst nc. exists c. simpl. subst i. rewrite Hlen. reflexivity.
    + pose proof (submitted_states c (world s)) as Hs. unfold submitted in Hs; simpl in Hs.
      rewrite Hs, seq_S, omap_app, Htasks. reflexivity.
    + apply (submitted_HeapInv c (world s)); exact Hheap.
Qed.

Lemma deliver_settle s i xhandle err payload nc :
  Inv E s → calls (world s) !! i = Some nc →
  ∃ st, code_settlement st ∧
        deliver i xhandle err payload (world s) =
        {| heap := settle i st (heap (world s));
           calls := calls (world s); clock := clock (world s) |}.
Proof.
  intros HI Hnc. destruct (inv_calls _ _ HI i nc Hnc) as [c Hc].
  destruct (callback_of_owns c i xhandle err payload (heap (world s))) as (st & Hst & Heq).
  exists st. split; [exact Hst|].
  unfold deliver. rewrite Hnc, Hc. simpl. simpl in Heq. rewrite Heq. reflexivity.
Qed.

Lemma Inv_deliver s i xhandle err payload :
  Inv E s → Inv E (step E s (Deliver i xhandle err payload)).
Proof.
  intros HI. simpl.
  destruct (calls (world s) !! i) as [nc|] eqn:Hnc.
  - destruct (deliver_settle s i xhandle err payload nc HI Hnc) as (st & Hst & ->).
    destruct HI as [Hlen Hcalls Htasks Hheap].
    split; cbn [world heap calls tasks]; rewrite ?settle_length; auto.
    apply HeapInv_settle; auto.
    rewrite <- Hlen. eapply lookup_lt_Some; eauto.
  - unfold deliver. rewrite Hnc. destruct HI. split; simpl; auto.
Qed.

Lemma Inv_step s e : Inv E s → Inv E (step E s e).
Proof. destruct e; [apply Inv_submit | apply Inv_deliver]. Qed.

Lemma Inv_exec evs s : Inv E s → Inv E (exec E evs s).
Proof.
  revert s. induction evs as [|e evs IH]; intros s HI; simpl; [exact HI|].
  apply IH, Inv_step, HI.
Qed.

Lemma Inv_reachable evs : Inv E (exec E evs init).
Proof. apply Inv_exec, Inv_init. Qed.

Lemma exec_cons e evs s : exec E (e :: evs) s = exec E evs (step E s e).
Proof. reflexivity. Qed.

Lemma exec_app evs1 evs2 s : exec E (evs1 ++ evs2) s = exec E evs2 (exec E evs1 s).
Proof. unfold exec. apply fold_left_app. Qed.

(** The log of native calls only grows. *)
Lemma step_calls s e i nc :
  calls (world s) !! i = Some nc → calls (world (step E s e)) !! i = Some nc.
Proof.
  intros Hnc. destruct e as [c | j xhandle err payload]; simpl.
  - destruct (load_failure E c) as [e|] eqn:Hload.
    + rewrite (invoke_load_failure _ _ _ _ Hload). exact Hnc.
    + rewrite (invoke_submitted _ _ _ Hload). simpl.
      apply lookup_app_l_Some; exact Hnc.
  - unfold deliver. destruct (calls (world s) !! j); exact Hnc.
Qed.

Lemma exec_calls evs s i nc :
  calls (world s) !! i = Some nc → calls (world (exec E evs s)) !! i = Some nc.
Proof.
  revert s. induction evs as [|e evs IH]; intros s Hnc; simpl; [exact Hnc|].
  apply IH, step_calls, Hnc.
Qed.

(** Rely and guarantee for one promise: whatever the callback of call [i]
    preserves is preserved by every run, since nothing else touches
    promise [i]; the callback matters only if the run invokes it. *)
Lemma step_promise_preserved (P : option PromiseState → Prop) s e i nc :
  Inv E s →
  calls (world s) !! i = Some nc →
  (delivers_to i e = true →
   ∀ xhandle err payload h,
     P (states h !! i) → P (states (cb_fn (nc_cb nc) xhandle err payload h) !! i)) →
  P (promise s i) → P (promise (step E s e) i).
Proof.
  intros HI Hnc Hcb HP. unfold promise in *.
  assert (Hi : i < length (states (heap (world s)))).
  { rewrite <- (inv_len _ _ HI). eapply lookup_lt_Some; eauto. }
  destruct e as [c | j xhandle err payload]; simpl.
  - destruct (load_failure E c) as [e|] eqn:Hload.
    + rewrite (invoke_load_failure _ _ _ _ Hload). exact HP.
    + rewrite (invoke_submitted _ _ _ Hload). simpl.
      pose proof (submitted_lookup_old c (world s) i Hi) as Hold.
      unfold submitted in Hold; simpl in Hold. rewrite Hold. exact HP.
  - destruct (decide (j = i)) as [->|Hne].
    + unfold deliver. rewrite Hnc. simpl.
      apply Hcb; [|exact HP]. simpl. apply bool_decide_eq_true; reflexivity.
    + destruct (calls (world s) !! j) as [ncj|] eqn:Hncj.
      * destruct (deliver_settle s j xhandle err payload ncj HI Hncj) as (st & _ & ->).
        cbn [world heap]. rewrite settle_lookup_ne by congruence. exact HP.
      * unfold deliver. rewrite Hncj. exact HP.
Qed.

Lemma exec_promise_preserved (P : option PromiseState → Prop) evs s i nc :
  Inv E s →
  calls (world s) !! i = Some nc →
  (undelivered i evs = false →
   ∀ xhandle err payload h,
     P (states h !! i) → P (states (cb_fn (nc_cb nc) xhandle err payload h) !! i)) →
  P (promise s i) → P (promise (exec E evs s) i).
Proof.
  revert s. induction evs as [|e evs IH]; intros s HI Hnc Hcb HP; simpl; [exact HP|].
  apply IH.
  - apply Inv_step, HI.
  - apply step_calls, Hnc.
  - intros Hu. apply Hcb. simpl. rewrite Hu. apply andb_false_r.
  - eapply step_promise_preserved; eauto.
    intros Hd. apply Hcb. simpl. rewrite Hd. reflexivity.
Qed.

End Invariant.

(** ** One call from submission to completion *)

Section OneCall.

Context (E : Env).

Lemma callback_settled c i xhandle err payload h st :
  states h !! i = Some st → settled st = true →
  states (cb_fn (callback_of c i) xhandle err payload h) !! i = Some st.
Proof.
  intros Hi Hst. simpl. destruct (truthy err); unfold reject_of, resolve_of;
    eapply settle_lookup_settled; eauto.
Qed.

Lemma callback_pending c i xhandle err payload h :
  states h !! i = Some Pending →
  states (cb_fn (callback_of c i) xhandle err payload h) !! i =
  Some (if truthy err then Rejected (VNum err)
        else Fulfilled (resolved_with c err payload)).
Proof.
  intros Hi. simpl. destruct (truthy err); unfold reject_of, resolve_of;
    apply settle_lookup_pending; exact Hi.
Qed.

Lemma callback_result c i xhandle err payload h :
  bridge_result c (states h !! i) →
  bridge_result c (states (cb_fn (callback_of c i) xhandle err payload h) !! i).
Proof.
  intros [Hp | [(n & Hn & Hr) | (v & Hf)]].
  - rewrite (callback_pending _ _ _ _ _ _ Hp).
    destruct (truthy err) eqn:Herr.
    + right; left. exists err. split; [apply truthy_true; exact Herr | reflexivity].
    + right; right. exists payload.
      apply truthy_false in Herr. subst err. reflexivity.
  - right; left. exists n. split; [exact Hn|].
    eapply callback_settled; eauto.
  - right; right. exists v. eapply callback_settled; eauto.
Qed.

(** A settled promise keeps its state through every run. *)
Lemma promise_stable s evs i st :
  Inv E s → is_Some (calls (world s) !! i) →
  promise s i = Some st → settled st = true →
  promise (exec E evs s) i = Some st.
Proof.
  intros HI [nc Hnc] Hp Hst.
  destruct (inv_calls _ _ HI i nc Hnc) as [c Hc].
  apply (exec_promise_preserved E (λ o, o = Some st) evs s i nc HI Hnc); [|exact Hp].
  intros _ xhandle err payload h Hh. rewrite Hc. cbn [nc_cb].
  eapply callback_settled; eauto.
Qed.

(** A promise whose callback is not invoked keeps its state. *)
Lemma promise_untouched s evs i :
  Inv E s → is_Some (calls (world s) !! i) →
  undelivered i evs = true →
  promise (exec E evs s) i = promise s i.
Proof.
  intros HI [nc Hnc] Hu.
  apply (exec_promise_preserved E (λ o, o = promise s i) evs s i nc HI Hnc);
    [|reflexivity].
  intros Hd. rewrite Hu in Hd. discriminate.
Qed.

Section Submitted.

Context (pre : list Event) (c : Call).
Hypothesis Hload : load_failure E c = None.

Lemma call_index_fresh : call_index E pre = fresh (world (exec E pre init)).
Proof. apply (inv_len _ _ (Inv_reachable E pre)). Qed.

Lemma submit_step :
  step E (exec E pre init) (Submit c) =
  {| world := submitted E c (world (exec E pre init));
     tasks := tasks (exec E pre init) ++ [Suspended (task_of E c (call_index E pre))];
     delivered := delivered (exec E pre init) |}.
Proof.
  simpl. rewrite (invoke_submitted _ _ _ Hload).
  rewrite call_index_fresh. reflexivity.
Qed.

Lemma submit_call :
  calls (world (step E (exec E pre init) (Submit c))) !! (call_index E pre) =
  Some (mkNativeCall (native_entry c) 0 (native_args E c) (status_at E pre c)
          (callback_of c (call_index E pre))).
Proof.
  rewrite submit_step. simpl. rewrite call_index_fresh at 1.
  pose proof (inv_len _ _ (Inv_reachable E pre)) as Hlen.
  unfold fresh at 1. rewrite <- Hlen.
  rewrite list_lookup_middle by reflexivity.
  rewrite call_index_fresh. reflexivity.
Qed.

Lemma submit_promise :
  promise (step E (exec E pre init) (Submit c)) (call_index E pre) =
  Some (if truthy (status_at E pre c) then Rejected (VNum (status_at E pre c))
        else Pending).
Proof.
  rewrite submit_step. unfold promise. simpl.
  rewrite call_index_fresh. apply submitted_lookup_new.
Qed.

Lemma submit_Inv : Inv E (step E (exec E pre init) (Submit c)).
Proof. apply Inv_step, Inv_reachable. Qed.

Lemma after_call_exec post :
  after_call E pre c post = exec E post (step E (exec E pre init) (Submit c)).
Proof. reflexivity. Qed.

(** What the caller observes is read off the bridge promise. *)
Lemma run_call_bridge post :
  run_call E pre c post =
  match bridge_promise E pre c post with
  | Some (Fulfilled v) => Returned (if returns_value c then v else VUndefined)
  | Some (Rejected e) => Threw (error_of E c e)
  | _ => StillPending
  end.
Proof.
  unfold run_call, bridge_promise, promise.
  rewrite (invoke_submitted _ _ _ Hload). simpl.
  rewrite <- call_index_fresh.
  destruct (states _ !! (call_index E pre)) as [[|v|e]|]; try reflexivity.
  destruct (returns_value c); reflexivity.
Qed.

(** A failed submission settles the promise at once, whatever follows. *)
Lemma bridge_submission_failure post :
  status_at E pre c ≠ 0%Z →
  bridge_promise E pre c post = Some (Rejected (VNum (status_at E pre c))).
Proof.
  intros Hrc. unfold bridge_promise. rewrite after_call_exec.
  apply promise_stable; [apply submit_Inv | | | reflexivity].
  - rewrite submit_call. eauto.
  - rewrite submit_promise.
    apply truthy_true in Hrc. rewrite Hrc. reflexivity.
Qed.

(** The first invocation of the callback after a successful submission
    settles the promise, whatever follows. *)
Lemma bridge_first_callback mid post xhandle err payload :
  status_at E pre c = 0%Z →
  undelivered (call_index E pre) mid = true →
  bridge_promise E pre c (mid ++ Deliver (call_index E pre) xhandle err payload :: post) =
  Some (if truthy err then Rejected (VNum err)
        else Fulfilled (resolved_with c err payload)).
Proof.
  intros Hrc Hmid. unfold bridge_promise.
  rewrite after_call_exec, exec_app, exec_cons.
  set (k := call_index E pre).
  set (nc := mkNativeCall (native_entry c) 0 (native_args E c) (status_at E pre c)
               (callback_of c k)).
  set (s2 := exec E mid (step E (exec E pre init) (Submit c))).
  assert (HI2 : Inv E s2) by apply Inv_exec, submit_Inv.
  assert (Hc2 : calls (world s2) !! k = Some nc) by apply exec_calls, submit_call.
  assert (Hp2 : promise s2 k = Some Pending).
  { unfold s2, k. rewrite promise_untouched; auto using submit_Inv.
    - rewrite submit_promise, Hrc. reflexivity.
    - rewrite submit_call. eauto. }
  apply promise_stable.
  - apply Inv_step, HI2.
  - exists nc. apply step_calls, Hc2.
  - unfold promise. simpl. unfold deliver. rewrite Hc2. cbn [heap nc_cb nc].
    apply callback_pending. exact Hp2.
  - destruct (truthy err); reflexivity.
Qed.

(** The bridge promise is pending, rejected with a non-zero code, or
    fulfilled by the success branch of the callback. *)
Lemma bridge_promise_result post : bridge_result c (bridge_promise E pre c post).
Proof.
  unfold bridge_promise. rewrite after_call_exec.
  eapply (exec_promise_preserved E (bridge_result c)).
  - apply submit_Inv.
  - apply submit_call.
  - intros _ xhandle err payload h. cbn [nc_cb]. apply callback_result.
  - rewrite submit_promise. destruct (truthy _) eqn:Hrc.
    + right; left. eexists. split; [|reflexivity]. apply truthy_true; exact Hrc.
    + left. reflexivity.
Qed.

(** What the caller observes after a failed submission. *)
Lemma run_call_submission_failure post :
  status_at E pre c ≠ 0%Z →
  run_call E pre c post = Threw (error_of E c (VNum (status_at E pre c))).
Proof.
  intros Hrc. rewrite run_call_bridge, (bridge_submission_failure post Hrc).
  reflexivity.
Qed.

End Submitted.

End OneCall.

(** ** The native protocol *)

Section Protocol.

Context (E : Env).

Lemma attempts_on_submitted c w i :
  attempts_on i (heap (submitted E c w)) =
  attempts_on i (heap w) +
  (if truthy (immediate_status E c w) then if decide (fresh w = i) then 1 else 0 else 0).
Proof.
  unfold submitted. cbn [heap].
  destruct (truthy _).
  - unfold reject_of. rewrite attempts_on_settle. reflexivity.
  - unfold attempts_on. simpl. lia.
Qed.

Lemma submitted_calls c w :
  calls (submitted E c w) =
  calls w ++ [mkNativeCall (native_entry c) 0 (native_args E c)
                (immediate_status E c w) (callback_of c (fresh w))].
Proof. reflexivity. Qed.

Lemma attempts_on_zero_pending h p :
  HeapInv h → p < length (states h) → attempts_on p h = 0 →
  states h !! p = Some Pending.
Proof.
  intros [_ Hfirst] Hp H0. rewrite (Hfirst p Hp).
  unfold attempts_on in H0. apply length_zero_iff_nil in H0.
  unfold first_attempt. rewrite H0. reflexivity.
Qed.

Lemma attempts_on_pos_settled h p :
  HeapInv h → p < length (states h) → attempts_on p h ≠ 0 →
  ∃ st, states h !! p = Some st ∧ settled st = true.
Proof.
  intros Hh Hp Hpos. pose proof Hh as [Hatt Hfirst].
  rewrite (Hfirst p Hp).
  destruct (first_attempt p h) as [st|] eqn:Hfa.
  - exists st. split; [reflexivity|].
    apply first_attempt_elem, Hatt in Hfa as [_ Hcode].
    apply code_settlement_settled; exact Hcode.
  - exfalso. apply Hpos. unfold first_attempt in Hfa. unfold attempts_on.
    destruct (filter _ (attempts h)); [reflexivity | discriminate].
Qed.

Lemma ProtocolInv_init : ProtocolInv init.
Proof.
  split; simpl.
  - intros i. reflexivity.
  - intros i H. apply elem_of_nil in H. destruct H.
Qed.

Lemma ProtocolInv_step s e :
  Inv E s → ProtocolInv s → allowed s e = true → ProtocolInv (step E s e).
Proof.
  intros HI [Hatt Hdel] Hallowed.
  destruct e as [c | j xhandle err payload]; simpl in *.
  - destruct (load_failure E c) as [e|] eqn:Hload.
    + rewrite (invoke_load_failure _ _ _ _ Hload). split; assumption.
    + rewrite (invoke_submitted _ _ _ Hload). split; cbn [world delivered calls].
      * intros i. rewrite attempts_on_submitted, Hatt.
        pose proof (inv_len _ _ HI) as Hlen.
        unfold completed; cbn [world delivered]. rewrite submitted_calls.
        unfold fresh.
        destruct (lt_eq_lt_dec i (length (calls (world s)))) as [[Hlt | ->] | Hgt].
        -- rewrite lookup_app_l by exact Hlt.
           rewrite decide_False by lia. destruct (truthy _); lia.
        -- rewrite list_lookup_middle by reflexivity. cbn [nc_status].
           rewrite lookup_ge_None_2 by lia.
           rewrite decide_True by lia.
           rewrite bool_decide_eq_false_2
             by (intros Hin; apply Hdel in Hin; lia).
           rewrite orb_false_r.
           destruct (truthy _); reflexivity.
        -- rewrite !lookup_ge_None_2 by (rewrite ?length_app; simpl; lia).
           rewrite decide_False by lia. destruct (truthy _); lia.
      * intros i Hin. apply Hdel in Hin. rewrite submitted_calls, length_app. lia.
  - apply andb_true_iff in Hallowed as [Hnew Hcall].
    apply bool_decide_eq_true in Hnew.
    destruct (calls (world s) !! j) as [nc|] eqn:Hnc; [|discriminate].
    apply negb_true_iff in Hcall.
    destruct (deliver_settle E s j xhandle err payload nc HI Hnc) as (st & _ & ->).
    split; cbn [world delivered calls heap].
    + intros i. rewrite attempts_on_settle, Hatt.
      unfold completed; cbn [world delivered calls].
      destruct (decide (j = i)) as [->|Hne].
      * rewrite Hnc, Hcall.
        rewrite bool_decide_eq_false_2 by exact Hnew.
        rewrite bool_decide_eq_true_2; [reflexivity|].
        apply elem_of_app; right. apply list_elem_of_singleton; reflexivity.
      * destruct (calls (world s) !! i) as [nci|]; [|lia].
        replace (bool_decide (i ∈ delivered s ++ [j]))
          with (bool_decide (i ∈ delivered s)); [lia|].
        apply bool_decide_ext. rewrite elem_of_app, list_elem_of_singleton.
        split; [auto | intros [H | H]; [exact H | congruence]].
    + intros i [Hin | Hin%list_elem_of_singleton]%elem_of_app.
      * apply Hdel; exact Hin.
      * subst i. eapply lookup_lt_Some; eauto.
Qed.

Lemma ProtocolInv_exec evs s :
  Inv E s → ProtocolInv s → obeys E s evs = true → ProtocolInv (exec E evs s).
Proof.
  revert s. induction evs as [|e evs IH]; intros s HI HP Hobeys; simpl; [exact HP|].
  simpl in Hobeys. apply andb_true_iff in Hobeys as [Ha Ho].
  apply IH; auto using Inv_step, ProtocolInv_step.
Qed.

(** Invoking the callback of one call leaves the promises of all other
    calls as they are. *)
Lemma deliver_frame s i j xhandle err payload :
  Inv E s → j ≠ i →
  promise (step E s (Deliver i xhandle err payload)) j = promise s j.
Proof.
  intros HI Hne. unfold promise. simpl.
  destruct (calls (world s) !! i) as [nc|] eqn:Hnc.
  - destruct (deliver_settle E s i xhandle err payload nc HI Hnc) as (st & _ & ->).
    cbn [heap]. apply settle_lookup_ne; exact Hne.
  - unfold deliver. rewrite Hnc. reflexivity.
Qed.

End Protocol.

(** ** A call is a function of its own callbacks *)

Section Replay.

Context (E : Env).

Lemma callback_react c i xhandle err payload h st :
  states h !! i = Some st →
  states (cb_fn (callback_of c i) xhandle err payload h) !! i
  = Some (react c st err payload).
Proof.
  intros Hst. destruct st as [|v|r].
  - apply callback_pending; exact Hst.
  - eapply callback_settled; eauto.
  - eapply callback_settled; eauto.
Qed.

Lemma step_replay s e c i nc st :
  Inv E s →
  calls (world s) !! i = Some nc → nc_cb nc = callback_of c i →
  promise s i = Some st →
  promise (step E s e) i = Some (replay c i [e] st).
Proof.
  intros HI Hnc Hcb Hst. destruct e as [c' | j xhandle err payload]; simpl.
  - apply (step_promise_preserved E (λ o, o = Some st) s (Submit c') i nc HI Hnc);
      [discriminate | exact Hst].
  - destruct (decide (j = i)) as [->|Hne].
    + rewrite bool_decide_eq_true_2 by reflexivity.
      unfold promise. simpl. unfold deliver. rewrite Hnc, Hcb. cbn [heap].
      apply callback_react; exact Hst.
    + rewrite bool_decide_eq_false_2 by exact Hne.
      rewrite <- Hst. apply (deliver_frame E s j i xhandle err payload HI). congruence.
Qed.

Lemma exec_replay evs s c i nc st :
  Inv E s →
  calls (world s) !! i = Some nc → nc_cb nc = callback_of c i →
  promise s i = Some st →
  promise (exec E evs s) i = Some (replay c i evs st).
Proof.
  revert s st. induction evs as [|e evs IH]; intros s st HI Hnc Hcb Hst;
    [exact Hst|].
  rewrite exec_cons.
  pose proof (step_replay s e c i nc st HI Hnc Hcb Hst) as Hstep.
  rewrite (IH (step E s e) (replay c i [e] st)); auto using Inv_step, step_calls.
  destruct e; reflexivity.
Qed.

Lemma bridge_promise_replay pre c post :
  load_failure E c = None →
  bridge_promise E pre c post
  = Some (replay c (call_index E pre) post (submitted_state (status_at E pre c))).
Proof.
  intros Hload. unfold bridge_promise. rewrite (after_call_exec E pre c).
  eapply exec_replay.
  - apply submit_Inv.
  - apply (submit_call E pre c Hload).
  - reflexivity.
  - apply (submit_promise E pre c Hload).
Qed.

Lemma replay_settled c i evs st :
  settled st = true → replay c i evs st = st.
Proof.
  revert st. induction evs as [|[c' | j xhandle err payload] evs IH];
    intros st Hst; simpl; auto.
  rewrite IH; destruct (bool_decide (j = i)); destruct st; auto; discriminate.
Qed.

Lemma react_settled c err payload : settled (react c Pending err payload) = true.
Proof. simpl. destruct (truthy err); reflexivity. Qed.

Lemma replay_deliveries c i evs st :
  replay c i (deliveries i evs) st = replay c i evs st.
Proof.
  revert st. induction evs as [|[c' | j xhandle err payload] evs IH];
    intros st; simpl; auto.
  destruct (bool_decide (j = i)) eqn:Hj; simpl; [rewrite Hj|]; apply IH.
Qed.

Lemma undelivered_deliveries i evs :
  undelivered i evs = true ↔ deliveries i evs = [].
Proof.
  induction evs as [|e evs IH]; simpl; [tauto|].
  destruct (delivers_to i e); simpl; [split; discriminate | exact IH].
Qed.

Lemma replay_pending c i evs :
  replay c i evs Pending = Pending ↔ undelivered i evs = true.
Proof.
  induction evs as [|[c' | j xhandle err payload] evs IH]; simpl; [tauto | exact IH |].
  destruct (bool_decide (j = i)); simpl; [|exact IH].
  rewrite replay_settled by apply react_settled.
  destruct (truthy err); split; discriminate.
Qed.

(** The first callback addressed to a pending call decides. *)
Lemma replay_first c i evs st :
  replay c i evs Pending = st → st ≠ Pending →
  ∃ xhandle err payload,
    Deliver i xhandle err payload ∈ evs ∧ st = react c Pending err payload.
Proof.
  induction evs as [|[c' | j xhandle err payload] evs IH]; simpl; intros Hr Hst.
  - congruence.
  - destruct (IH Hr Hst) as (x & e & p & Hin & Heq).
    exists x, e, p. split; [right; exact Hin | exact Heq].
  - destruct (decide (j = i)) as [->|Hne].
    + rewrite bool_decide_eq_true_2 in Hr by reflexivity.
      rewrite replay_settled in Hr by apply react_settled.
      exists xhandle, err, payload. split; [left | symmetry; exact Hr].
    + rewrite bool_decide_eq_false_2 in Hr by exact Hne.
      destruct (IH Hr Hst) as (x & e & p & Hin & Heq).
      exists x, e, p. split; [right; exact Hin | exact Heq].
Qed.

End Replay.

(** ** Counting and bookkeeping *)

Section Bookkeeping.

Context (E : Env).

Lemma run_call_load_failure pre c post e :
  load_failure E c = Some e →
  run_call E pre c post = Threw (new_VCXInternalError e None None).
Proof.
  intros Hload. unfold run_call.
  rewrite (invoke_load_failure _ _ _ _ Hload). reflexivity.
Qed.

Lemma step_attempts s e i :
  Inv E s → i < length (calls (world s)) →
  attempts_on i (heap (world (step E s e)))
  = attempts_on i (heap (world s)) + (if delivers_to i e then 1 else 0).
Proof.
  intros HI Hi. destruct e as [c | j xhandle err payload]; simpl.
  - destruct (load_failure E c) as [e|] eqn:Hload.
    + rewrite (invoke_load_failure _ _ _ _ Hload). simpl. lia.
    + rewrite (invoke_submitted _ _ _ Hload). cbn [world].
      rewrite attempts_on_submitted.
      pose proof (inv_len _ _ HI) as Hlen. unfold fresh.
      rewrite decide_False by lia. destruct (truthy _); lia.
  - destruct (calls (world s) !! j) as [nc|] eqn:Hnc.
    + destruct (deliver_settle E s j xhandle err payload nc HI Hnc) as (st & _ & ->).
      cbn [heap]. rewrite attempts_on_settle.
      destruct (decide (j = i)) as [->|Hne].
      * rewrite bool_decide_eq_true_2 by reflexivity. reflexivity.
      * rewrite bool_decide_eq_false_2 by exact Hne. reflexivity.
    + unfold deliver. rewrite Hnc.
      rewrite bool_decide_eq_false_2; [lia|].
      intros ->. apply lookup_ge_None in Hnc. lia.
Qed.

Lemma exec_attempts evs s i :
  Inv E s → i < length (calls (world s)) →
  attempts_on i (heap (world (exec E evs s)))
  = attempts_on i (heap (world s)) + length (deliveries i evs).
Proof.
  revert s. induction evs as [|e evs IH]; intros s HI Hi; simpl; [lia|].
  rewrite IH.
  - rewrite (step_attempts s e i HI Hi).
    destruct (delivers_to i e); simpl; lia.
  - apply Inv_step, HI.
  - apply lookup_lt_is_Some in Hi as [nc Hnc].
    eapply lookup_lt_Some. apply step_calls. exact Hnc.
Qed.

Lemma fresh_unattempted s :
  Inv E s → attempts_on (fresh (world s)) (heap (world s)) = 0.
Proof.
  intros HI. apply attempts_on_none. intros st Hin.
  apply (hinv_attempts _ (inv_heap _ _ HI)) in Hin as [Hlt _].
  unfold fresh in Hlt. lia.
Qed.

Lemma step_echo f s e : Inv E s → step E s (echo f e) = step E s e.
Proof.
  intros HI. destruct e as [c | j xhandle err payload]; [reflexivity|].
  simpl. f_equal. unfold deliver.
  destruct (calls (world s) !! j) as [nc|] eqn:Hnc; [|reflexivity].
  destruct (inv_calls _ _ HI j nc Hnc) as [c ->]. reflexivity.
Qed.

Lemma error_of_same_label c1 c2 r :
  catch_label c1 = catch_label c2 → error_of E c1 r = error_of E c2 r.
Proof.
  intros Hl. unfold error_of.
  destruct c1; simpl in *; destruct c2; simpl in *; congruence.
Qed.

End Bookkeeping.

(** * The claims *)

(** C1, as stated, fails for [addRecord]: the native call answers 0, the
    callback comes with error code 0 and the payload ["ok"], and the
    operation resolves with [undefined], because it awaits the bridge
    promise without returning its value. *)
Lemma addRecord_discards_payload :
  ¬ resolves_with_payload (scripted []) (CAddRecord record0).
Proof.
  intros H.
  specialize (H [] [] [] 0%Z (VStr "ok") eq_refl eq_refl eq_refl).
  vm_compute in H. discriminate H.
Qed.

(** C1 (amended): when the native call of an operation whose callback
    takes a payload answers with status 0 and its callback is then invoked
    with error code 0 and payload [p], the promise made by the bridge is
    fulfilled with exactly [p], whatever happens afterwards; the operation
    itself resolves with exactly [p] if it returns the awaited value, and
    with [undefined] if it only awaits it. *)
Theorem success_delivers_payload E c pre mid post xhandle p :
  load_failure E c = None →
  has_payload c = true →
  status_at E pre c = 0%Z →
  undelivered (call_index E pre) mid = true →
  bridge_promise E pre c (mid ++ Deliver (call_index E pre) xhandle 0 p :: post)
    = Some (Fulfilled p) ∧
  run_call E pre c (mid ++ Deliver (call_index E pre) xhandle 0 p :: post)
    = Returned (if returns_value c then p else VUndefined).
Proof.
  intros Hload Hpay Hrc Hmid.
  pose proof (bridge_first_callback E pre c Hload mid post xhandle 0 p Hrc Hmid) as Hb.
  simpl in Hb.
  replace (resolved_with c 0 p) with p in Hb
    by (destruct c; simpl in Hpay; try discriminate; reflexivity).
  split; [exact Hb|].
  rewrite (run_call_bridge E pre c Hload), Hb. reflexivity.
Qed.

Lemma success_delivers_payload_witness :
  bridge_promise (scripted []) [Submit CGetLedgerFees] (CGetTokenInfo 7)
    ([Submit (CAddRecord record0)] ++ Deliver 1 0 0 (VStr "ok") :: [Deliver 1 0 3 VNull])
    = Some (Fulfilled (VStr "ok")) ∧
  run_call (scripted []) [Submit CGetLedgerFees] (CGetTokenInfo 7)
    ([Submit (CAddRecord record0)] ++ Deliver 1 0 0 (VStr "ok") :: [Deliver 1 0 3 VNull])
    = Returned (VStr "ok").
Proof.
  apply (success_delivers_payload (scripted []) (CGetTokenInfo 7)
           [Submit CGetLedgerFees] [Submit (CAddRecord record0)] [Deliver 1 0 3 VNull]
           0%Z (VStr "ok")); reflexivity.
Defined.

(** C2: when the native call of an operation answers with a non-zero
    status [rc], the operation throws the structured error made from
    [rc], which carries the code [rc]; it does so with no callback
    invoked at all, and no later event changes it. *)
Theorem submission_failure_rejects E c pre post :
  load_failure E c = None →
  status_at E pre c ≠ 0%Z →
  run_call E pre c post = Threw (error_of E c (VNum (status_at E pre c))) ∧
  vcxCode (error_of E c (VNum (status_at E pre c))) = VNum (status_at E pre c) ∧
  run_call E pre c [] = run_call E pre c post.
Proof.
  intros Hload Hrc.
  pose proof (λ evs, run_call_submission_failure E pre c Hload evs Hrc) as Hrun.
  split; [apply Hrun|]. split.
  - unfold error_of. destruct (is_wallet c); reflexivity.
  - rewrite !Hrun. reflexivity.
Qed.

Lemma submission_failure_rejects_witness :
  run_call (scripted [1%Z]) [] (CProvisionAgent "config" no_options)
    [Deliver 0 0 0 (VStr "late")]
  = Threw (new_VCXInternalError (VNum 1) None None).
Proof.
  apply (submission_failure_rejects (scripted [1%Z]) (CProvisionAgent "config" no_options)
           [] [Deliver 0 0 0 (VStr "late")]).
  - reflexivity.
  - vm_compute. discriminate.
Defined.

(** C3: for every operation and every non-zero code [code], a run in
    which the native call answers [code] at once and a run in which it
    answers 0 and the callback later reports [code] end in the same
    structured error. *)
Theorem submission_and_callback_failures_agree
    E c code pre1 post1 pre2 mid2 post2 xhandle payload :
  code ≠ 0%Z →
  load_failure E c = None →
  status_at E pre1 c = code →
  status_at E pre2 c = 0%Z →
  undelivered (call_index E pre2) mid2 = true →
  run_call E pre1 c post1 =
  run_call E pre2 c (mid2 ++ Deliver (call_index E pre2) xhandle code payload :: post2) ∧
  run_call E pre1 c post1 = Threw (error_of E c (VNum code)).
Proof.
  intros Hcode Hload H1 H2 Hmid.
  assert (Hsub : run_call E pre1 c post1 = Threw (error_of E c (VNum code))).
  { rewrite (run_call_submission_failure E pre1 c Hload post1), H1;
      [reflexivity | rewrite H1; exact Hcode]. }
  split; [|exact Hsub].
  rewrite Hsub, (run_call_bridge E pre2 c Hload).
  rewrite (bridge_first_callback E pre2 c Hload mid2 post2 xhandle code payload H2 Hmid).
  apply truthy_true in Hcode. rewrite Hcode. reflexivity.
Qed.

Lemma submission_and_callback_failures_agree_witness :
  run_call (scripted [0%Z; 5%Z]) [Submit CGetLedgerFees] (CGetRecord "type" "id") [] =
  run_call (scripted [0%Z; 5%Z]) [] (CGetRecord "type" "id")
    ([] ++ Deliver 0 0 5 VNull :: []) ∧
  run_call (scripted [0%Z; 5%Z]) [Submit CGetLedgerFees] (CGetRecord "type" "id") [] =
  Threw (new_VCXInternalError (VNum 5) (Some "error") (Some "vcx_wallet_get_record")).
Proof.
  apply (submission_and_callback_failures_agree (scripted [0%Z; 5%Z])
           (CGetRecord "type" "id") 5%Z [Submit CGetLedgerFees] [] [] [] [] 0%Z VNull);
    try reflexivity.
  discriminate.
Defined.

(** C4, as stated, fails for [provisionAgent]: its [catch] block builds
    the error from the caught code alone, so the error of a failed
    [vcx_agent_provision_async] names no native function. *)
Lemma provisionAgent_error_names_no_function :
  ¬ names_failed_entry (scripted [1%Z]) (CProvisionAgent "config" no_options).
Proof.
  intros H.
  specialize (H [] [] (new_VCXInternalError (VNum 1) None None) eq_refl).
  discriminate H.
Qed.

(** C4 (amended): every error an operation throws after its native call
    was made is a structured error that carries a non-zero numeric code
    reported by the native layer for that call: the immediate status, or,
    when the status was 0, the error code of a callback invoked for the
    call.  The operations of wallet.ts add the message looked up for that
    code and a function name, which for [getTokenInfo], [sendTokens],
    [addRecord], [deleteRecord], [getRecord], [openSearch] and
    [searchNextRecords] is the native entry point that was called; the
    operations of utils.ts give neither message nor function name. *)
Theorem surfaced_error_shape E c pre post e :
  load_failure E c = None →
  run_call E pre c post = Threw e →
  ∃ n, n ≠ 0%Z ∧ vcxCode e = VNum n ∧
    (n = status_at E pre c ∨
     (status_at E pre c = 0%Z ∧
      ∃ xhandle payload, Deliver (call_index E pre) xhandle n payload ∈ post)) ∧
    (is_wallet c = true →
       message e = Some (VCXBase_errorMessage E (VNum n)) ∧
       is_Some (nativeFunctionName e)) ∧
    (label_is_entry c = true → nativeFunctionName e = Some (native_entry c)) ∧
    (is_wallet c = false → message e = None ∧ nativeFunctionName e = None).
Proof.
  intros Hload Hrun.
  rewrite (run_call_bridge E pre c Hload), (bridge_promise_replay E pre c post Hload)
    in Hrun.
  assert (Hn : ∃ n, n ≠ 0%Z ∧ e = error_of E c (VNum n) ∧
            (n = status_at E pre c ∨
             (status_at E pre c = 0%Z ∧
              ∃ xhandle payload,
                Deliver (call_index E pre) xhandle n payload ∈ post))).
  { unfold submitted_state in Hrun.
    destruct (truthy (status_at E pre c)) eqn:Hrc.
    - rewrite replay_settled in Hrun by reflexivity. injection Hrun as <-.
      exists (status_at E pre c).
      split; [apply truthy_true; exact Hrc|]. split; [reflexivity | left; reflexivity].
    - apply truthy_false in Hrc.
      destruct (replay c (call_index E pre) post Pending) as [|w|r] eqn:Hr;
        try discriminate.
      injection Hrun as <-.
      destruct (replay_first c _ post _ Hr) as (xhandle & err & payload & Hin & Heq);
        [discriminate|].
      simpl in Heq. destruct (truthy err) eqn:Herr; [|discriminate].
      injection Heq as ->. exists err.
      split; [apply truthy_true; exact Herr|]. split; [reflexivity|].
      right. split; [exact Hrc|]. exists xhandle, payload. exact Hin. }
  destruct Hn as (n & Hn & -> & Hfrom).
  exists n. split; [exact Hn|].
  unfold error_of. destruct c; simpl;
    repeat split; try reflexivity; try discriminate; eauto.
Qed.

Lemma surfaced_error_shape_witness :
  ∃ n, n ≠ 0%Z ∧
    vcxCode (new_VCXInternalError (VNum 4) (Some "error") (Some "vcx_wallet_send_tokens"))
      = VNum n ∧
    (n = status_at (scripted []) [] (CSendTokens 1 10 "address") ∨
     (status_at (scripted []) [] (CSendTokens 1 10 "address") = 0%Z ∧
      ∃ xhandle payload,
        Deliver (call_index (scripted []) []) xhandle n payload
          ∈ [Deliver 0 0 4 VNull])) ∧
    (true = true →
       Some "error" = Some (VCXBase_errorMessage (scripted []) (VNum n)) ∧
       is_Some (Some "vcx_wallet_send_tokens")) ∧
    (true = true → Some "vcx_wallet_send_tokens" = Some "vcx_wallet_send_tokens") ∧
    (true = false → Some "error" = None ∧ Some "vcx_wallet_send_tokens" = None).
Proof.
  apply (surfaced_error_shape (scripted []) (CSendTokens 1 10 "address") []
           [Deliver 0 0 4 VNull]
           (new_VCXInternalError (VNum 4) (Some "error") (Some "vcx_wallet_send_tokens")));
    reflexivity.
Defined.

(** C5, as stated, fails: two calls submitted one after the other are both
    pending and both carry the command handle 0. *)
Lemma pending_calls_share_handle :
  ¬ tokens_unique
      (exec (scripted []) [Submit (CGetTokenInfo 1); Submit (CGetTokenInfo 2)] init).
Proof.
  intros H.
  specialize (H 0 1 _ _ eq_refl eq_refl eq_refl eq_refl eq_refl).
  discriminate H.
Qed.

(** C5 (amended): every submitted call passes the constant command handle
    0 to the native function, so pending calls share it.  A call is tied
    to its completion by the callback made for it: that callback only
    settles the promise of its own call, invoking it leaves the promises
    of all other calls unchanged, and no two operations await the same
    promise. *)
Theorem calls_correlated_by_callback E evs i nc :
  calls (world (exec E evs init)) !! i = Some nc →
  nc_handle nc = 0%Z ∧
  owns (nc_cb nc) i ∧
  (∀ j xhandle err payload, j ≠ i →
     promise (step E (exec E evs init) (Deliver i xhandle err payload)) j
     = promise (exec E evs init) j) ∧
  NoDup (omap promise_of (tasks (exec E evs init))).
Proof.
  intros Hnc. pose proof (Inv_reachable E evs) as HI.
  destruct (inv_calls _ _ HI i nc Hnc) as [c Hc].
  split; [rewrite Hc; reflexivity|].
  split; [rewrite Hc; apply callback_of_owns|].
  split.
  - intros j xhandle err payload Hne. apply deliver_frame; assumption.
  - rewrite (inv_tasks _ _ HI). apply NoDup_seq.
Qed.

Lemma calls_correlated_by_callback_witness :
  nc_handle (mkNativeCall "vcx_wallet_open_search" 0 [VStr "t"; VStr "q"; VStr "o"] 0
               (callback_of (COpenSearch "t" "q" "o") 1)) = 0%Z.
Proof.
  apply (calls_correlated_by_callback (scripted [])
           [Submit (CAddRecord record0); Submit (COpenSearch "t" "q" "o")] 1).
  reflexivity.
Defined.

(** C6: initializing the runtime binding, while it is uninitialized, with
    a null, empty or unloadable library path fails with
    [InvalidConfiguration] and leaves the binding uninitialized. *)
Theorem initialize_unusable_path loadable cfg :
  RuntimeBinding.unusable loadable cfg = true →
  RuntimeBinding.initialize loadable cfg RuntimeBinding.Uninitialized =
  (RuntimeBinding.Uninitialized, Some RuntimeBinding.InvalidConfiguration).
Proof.
  unfold RuntimeBinding.unusable, RuntimeBinding.initialize, RuntimeBinding.request.
  destruct (RuntimeBinding.libraryPath cfg) as [p|]; [|reflexivity].
  destruct (String.eqb p "") eqn:Hp; simpl; [reflexivity|].
  intros Hl. apply negb_true_iff in Hl. rewrite Hl. reflexivity.
Qed.

Lemma initialize_unusable_path_witness :
  RuntimeBinding.initialize (fun p => String.eqb p "/usr/lib/libvcx.so")
    {| RuntimeBinding.libraryPath := Some "invalidPath" |} RuntimeBinding.Uninitialized =
  (RuntimeBinding.Uninitialized, Some RuntimeBinding.InvalidConfiguration).
Proof.
  apply (initialize_unusable_path (fun p => String.eqb p "/usr/lib/libvcx.so")
           {| RuntimeBinding.libraryPath := Some "invalidPath" |}).
  reflexivity.
Defined.

(** C7: for every submitted call, in a run that obeys the native protocol,
    exactly one [resolve] or [reject] has been called on its promise once
    the call is completed and none before, and the promise is settled
    exactly when the call is completed; in every run, a promise that is
    settled keeps its state whatever is attempted afterwards, so that no
    pending call is settled twice. *)
Theorem settled_once_per_call E evs i :
  i < length (calls (world (exec E evs init))) →
  (obeys E init evs = true →
     attempts_on i (heap (world (exec E evs init)))
     = (if completed (exec E evs init) i then 1 else 0) ∧
     (completed (exec E evs init) i = true ↔
      ∃ st, promise (exec E evs init) i = Some st ∧ settled st = true)) ∧
  (∀ more st,
     promise (exec E evs init) i = Some st → settled st = true →
     promise (exec E more (exec E evs init)) i = Some st).
Proof.
  intros Hi. pose proof (Inv_reachable E evs) as HI.
  set (s := exec E evs init) in *.
  assert (Hp : i < length (states (heap (world s))))
    by (rewrite <- (inv_len _ _ HI); exact Hi).
  split.
  - intros Hobeys.
    pose proof (ProtocolInv_exec E evs init (Inv_init E) ProtocolInv_init Hobeys)
      as [Hatt _].
    fold s in Hatt. split; [apply Hatt|].
    specialize (Hatt i). split.
    + intros Hc. rewrite Hc in Hatt.
      apply attempts_on_pos_settled; [apply (inv_heap _ _ HI) | exact Hp | lia].
    + intros (st & Hst & Hsettled).
      destruct (completed s i); [reflexivity|].
      pose proof (attempts_on_zero_pending _ _ (inv_heap _ _ HI) Hp Hatt) as Hpend.
      unfold promise in Hst. rewrite Hpend in Hst. injection Hst as <-.
      discriminate Hsettled.
  - intros more st Hst Hsettled.
    apply promise_stable; auto.
    apply lookup_lt_is_Some; exact Hi.
Qed.

Lemma settled_once_per_call_witness :
  attempts_on 1
    (heap (world (exec (scripted [0%Z; 3%Z])
       [Submit (CGetTokenInfo 1); Submit (CCloseSearch 2); Deliver 0 0 0 (VStr "a")]
       init))) = 1.
Proof.
  apply (settled_once_per_call (scripted [0%Z; 3%Z])
           [Submit (CGetTokenInfo 1); Submit (CCloseSearch 2); Deliver 0 0 0 (VStr "a")] 1).
  - simpl. lia.
  - reflexivity.
Defined.

(** C8: whenever [updateMessages] returns a value, that value is the
    number 0. *)
Theorem updateMessages_resolves_zero E cfg pre post v :
  run_call E pre (CUpdateMessages cfg) post = Returned v → v = VNum 0.
Proof.
  intros Hrun.
  rewrite (run_call_bridge E pre (CUpdateMessages cfg) eq_refl) in Hrun.
  destruct (bridge_promise_result E pre (CUpdateMessages cfg) eq_refl post)
    as [Hp | [(n & Hn & Hr) | (payload & Hf)]].
  - rewrite Hp in Hrun. discriminate.
  - rewrite Hr in Hrun. discriminate.
  - rewrite Hf in Hrun. simpl in Hrun. injection Hrun as <-. reflexivity.
Qed.

Lemma updateMessages_resolves_zero_witness :
  run_call (scripted []) [] (CUpdateMessages {| msgJson := "[]" |})
    [Deliver 0 0 0 VUndefined] = Returned (VNum 0) ∧ VNum 0 = VNum 0.
Proof.
  split; [reflexivity|].
  apply (updateMessages_resolves_zero (scripted []) {| msgJson := "[]" |} []
           [Deliver 0 0 0 VUndefined]).
  reflexivity.
Defined.

(** C9: whenever [closeSearch] completes successfully, the promise made by
    the bridge has been resolved with the search handle that was passed
    in, while the operation itself returns [undefined]; whenever it
    fails, the structured error names ['vcx_wallet_open_search'], which is
    not the entry point [closeSearch] calls. *)
Theorem closeSearch_outcomes E handle pre post :
  (∀ v, run_call E pre (CCloseSearch handle) post = Returned v →
        bridge_promise E pre (CCloseSearch handle) post = Some (Fulfilled (VNum handle)) ∧
        v = VUndefined) ∧
  (∀ e, run_call E pre (CCloseSearch handle) post = Threw e →
        nativeFunctionName e = Some "vcx_wallet_open_search" ∧
        nativeFunctionName e ≠ Some (native_entry (CCloseSearch handle))).
Proof.
  rewrite (run_call_bridge E pre (CCloseSearch handle) eq_refl).
  destruct (bridge_promise_result E pre (CCloseSearch handle) eq_refl post)
    as [Hp | [(n & Hn & Hr) | (payload & Hf)]].
  - rewrite Hp. split; intros ? H; discriminate H.
  - rewrite Hr. split; intros ? H; [discriminate H|].
    injection H as <-. simpl. split; [reflexivity | discriminate].
  - rewrite Hf. split; intros ? H; [|discriminate H].
    simpl in H. injection H as <-. split; reflexivity.
Qed.

Lemma closeSearch_outcomes_witness :
  (bridge_promise (scripted []) [] (CCloseSearch 42) [Deliver 0 0 0 VUndefined]
     = Some (Fulfilled (VNum 42)) ∧ VUndefined = VUndefined) ∧
  (nativeFunctionName
     (new_VCXInternalError (VNum 9) (Some "error") (Some "vcx_wallet_open_search"))
     = Some "vcx_wallet_open_search" ∧
   nativeFunctionName
     (new_VCXInternalError (VNum 9) (Some "error") (Some "vcx_wallet_open_search"))
     ≠ Some (native_entry (CCloseSearch 42))).
Proof.
  split.
  - apply (proj1 (closeSearch_outcomes (scripted []) 42 [] [Deliver 0 0 0 VUndefined])
             VUndefined).
    reflexivity.
  - apply (proj2 (closeSearch_outcomes (scripted [9%Z]) 42 [] [])
             (new_VCXInternalError (VNum 9) (Some "error") (Some "vcx_wallet_open_search"))).
    reflexivity.
Defined.

(** C10: [updateInstitutionConfigs] throws a structured error carrying the
    status of its native call when that status is not 0, and returns 0
    otherwise. *)
Theorem updateInstitutionConfigs_returns_zero E cfg w :
  match updateInstitutionConfigs E cfg w with
  | (inl v, _) =>
      v = 0%Z ∧
      native_status E (clock w) "vcx_update_institution_info"
        [VStr (name cfg); VStr (logoUrl cfg)] = 0%Z
  | (inr e, _) =>
      vcxCode e = VNum (native_status E (clock w) "vcx_update_institution_info"
                          [VStr (name cfg); VStr (logoUrl cfg)]) ∧
      native_status E (clock w) "vcx_update_institution_info"
        [VStr (name cfg); VStr (logoUrl cfg)] ≠ 0%Z
  end.
Proof.
  unfold updateInstitutionConfigs.
  destruct (truthy _) eqn:Hrc.
  - split; [reflexivity | apply truthy_true; exact Hrc].
  - apply truthy_false in Hrc. split; exact Hrc.
Qed.


(** * Further properties of the operations *)

(** X1: the promise an operation awaits is rejected at once with the
    immediate status when that status is not 0; otherwise it stays pending
    until the first callback addressed to its call, which rejects it with
    the error code if the code is not 0 and resolves it otherwise.  Other
    submissions, callbacks of other calls and later callbacks of the same
    call leave it as it is. *)
Theorem promise_follows_own_callbacks E pre c post :
  load_failure E c = None →
  bridge_promise E pre c post
  = Some (replay c (call_index E pre) post (submitted_state (status_at E pre c))).
Proof.
  intros Hload. unfold bridge_promise. rewrite (after_call_exec E pre c).
  apply exec_replay
    with (nc := mkNativeCall (native_entry c) 0 (native_args E c) (status_at E pre c)
                  (callback_of c (call_index E pre))).
  - apply submit_Inv.
  - apply (submit_call E pre c Hload).
  - reflexivity.
  - apply (submit_promise E pre c Hload).
Qed.

Lemma promise_follows_own_callbacks_witness :
  bridge_promise (scripted []) [Submit CGetLedgerFees] (CGetRecord "type" "id")
    [Deliver 0 0 0 (VStr "fees"); Deliver 1 0 0 (VStr "record"); Deliver 1 0 7 VNull]
  = Some (Fulfilled (VStr "record")).
Proof.
  apply (promise_follows_own_callbacks (scripted []) [Submit CGetLedgerFees]
           (CGetRecord "type" "id")
           [Deliver 0 0 0 (VStr "fees"); Deliver 1 0 0 (VStr "record");
            Deliver 1 0 7 VNull]).
  reflexivity.
Defined.

(** X2: what the caller of an operation observes depends on the later
    events only through the callbacks addressed to its own call: two
    continuations with the same such callbacks, in the same order, give
    the same outcome, whatever else is submitted or delivered. *)
Theorem outcome_depends_on_own_callbacks E pre c post1 post2 :
  deliveries (call_index E pre) post1 = deliveries (call_index E pre) post2 →
  run_call E pre c post1 = run_call E pre c post2.
Proof.
  intros Hd. destruct (load_failure E c) as [e|] eqn:Hload.
  - rewrite !(run_call_load_failure E pre c _ e Hload). reflexivity.
  - rewrite !(run_call_bridge E pre c Hload), !(bridge_promise_replay E pre c _ Hload).
    rewrite <- (replay_deliveries c _ post1), <- (replay_deliveries c _ post2), Hd.
    reflexivity.
Qed.

Lemma outcome_depends_on_own_callbacks_witness :
  run_call (scripted [0%Z; 2%Z]) [] (CSendTokens 1 5 "address")
    [Submit (CAddRecord record0); Deliver 1 0 0 VNull; Deliver 0 0 0 (VStr "receipt")]
  = run_call (scripted [0%Z; 2%Z]) [] (CSendTokens 1 5 "address")
      [Deliver 0 0 0 (VStr "receipt"); Submit CGetLedgerFees].
Proof.
  apply (outcome_depends_on_own_callbacks (scripted [0%Z; 2%Z]) []
           (CSendTokens 1 5 "address")).
  reflexivity.
Defined.

(** X3: an operation whose native call was made is still pending exactly
    when the immediate status was 0 and no callback has been invoked for
    its call: nothing but the native layer ever settles it. *)
Theorem pending_until_callback E pre c post :
  load_failure E c = None →
  (run_call E pre c post = StillPending ↔
   status_at E pre c = 0%Z ∧ undelivered (call_index E pre) post = true).
Proof.
  intros Hload.
  rewrite (run_call_bridge E pre c Hload), (bridge_promise_replay E pre c post Hload).
  unfold submitted_state.
  destruct (truthy (status_at E pre c)) eqn:Hrc.
  - rewrite replay_settled by reflexivity.
    apply truthy_true in Hrc. split; [discriminate | tauto].
  - apply truthy_false in Hrc. rewrite <- replay_pending with (c := c).
    destruct (replay c (call_index E pre) post Pending) eqn:Hr.
    + tauto.
    + split; [discriminate | intros [_ H]; discriminate H].
    + split; [discriminate | intros [_ H]; discriminate H].
Qed.

Lemma pending_until_callback_witness :
  run_call (scripted []) [] (CDeleteRecord "type" "id")
    [Submit CGetLedgerFees; Deliver 1 0 0 (VStr "fees")] = StillPending.
Proof.
  apply (pending_until_callback (scripted []) [] (CDeleteRecord "type" "id")
           [Submit CGetLedgerFees; Deliver 1 0 0 (VStr "fees")]);
    [reflexivity | split; reflexivity].
Defined.

(** X4: when the native call of an operation answers 0 and the first
    callback for it reports a non-zero error code, the operation throws
    the structured error of that code, whatever payload came with the
    callback and whatever happens afterwards. *)
Theorem callback_failure_rejects E c pre mid post xhandle err payload :
  load_failure E c = None →
  status_at E pre c = 0%Z →
  undelivered (call_index E pre) mid = true →
  err ≠ 0%Z →
  run_call E pre c (mid ++ Deliver (call_index E pre) xhandle err payload :: post)
  = Threw (error_of E c (VNum err)) ∧
  vcxCode (error_of E c (VNum err)) = VNum err.
Proof.
  intros Hload Hrc Hmid Herr. split.
  - rewrite (run_call_bridge E pre c Hload).
    rewrite (bridge_first_callback E pre c Hload mid post xhandle err payload Hrc Hmid).
    apply truthy_true in Herr. rewrite Herr. reflexivity.
  - unfold error_of. destruct (is_wallet c); reflexivity.
Qed.

Lemma callback_failure_rejects_witness :
  run_call (scripted []) [] (COpenSearch "type" "{}" "{}")
    ([] ++ Deliver 0 0 1008 (VNum 3) :: [Deliver 0 0 0 (VNum 4)])
  = Threw (new_VCXInternalError (VNum 1008) (Some "error") (Some "vcx_wallet_open_search")).
Proof.
  apply (callback_failure_rejects (scripted []) (COpenSearch "type" "{}" "{}") [] []
           [Deliver 0 0 0 (VNum 4)] 0%Z 1008%Z (VNum 3)); try reflexivity.
  discriminate.
Defined.

(** X5: a value an operation returns was never made up by the wrapper:
    the native call answered 0 and a callback for that very call came
    with error code 0; the operation returns what that callback resolved
    with, or [undefined] if it only awaits. *)
Theorem returned_value_was_delivered E pre c post v :
  run_call E pre c post = Returned v →
  status_at E pre c = 0%Z ∧
  ∃ xhandle payload,
    Deliver (call_index E pre) xhandle 0 payload ∈ post ∧
    v = if returns_value c then resolved_with c 0 payload else VUndefined.
Proof.
  intros Hrun. destruct (load_failure E c) as [e|] eqn:Hload.
  { rewrite (run_call_load_failure E pre c post e Hload) in Hrun. discriminate. }
  rewrite (run_call_bridge E pre c Hload), (bridge_promise_replay E pre c post Hload)
    in Hrun.
  unfold submitted_state in Hrun.
  destruct (truthy (status_at E pre c)) eqn:Hrc.
  { rewrite replay_settled in Hrun by reflexivity. discriminate. }
  apply truthy_false in Hrc. split; [exact Hrc|].
  destruct (replay c (call_index E pre) post Pending) as [|w|r] eqn:Hr;
    try discriminate.
  injection Hrun as <-.
  destruct (replay_first c _ post _ Hr) as (xhandle & err & payload & Hin & Heq);
    [discriminate|].
  simpl in Heq. destruct (truthy err) eqn:Herr; [discriminate|].
  apply truthy_false in Herr. subst err. injection Heq as ->.
  exists xhandle, payload. split; [exact Hin | reflexivity].
Qed.

Lemma returned_value_was_delivered_witness :
  status_at (scripted []) [] (CSearchNextRecords 3 10) = 0%Z ∧
  ∃ xhandle payload,
    Deliver (call_index (scripted []) []) xhandle 0 payload
      ∈ [Deliver 0 0 0 (VStr "records")] ∧
    VStr "records" = payload.
Proof.
  apply (returned_value_was_delivered (scripted []) [] (CSearchNextRecords 3 10)
           [Deliver 0 0 0 (VStr "records")] (VStr "records")).
  reflexivity.
Defined.

(** X6: the code of an error an operation throws after its native call
    was made is one the native layer reported for that very call: the
    non-zero immediate status, or else the non-zero error code of a
    callback addressed to the call. *)
Theorem error_code_was_reported E pre c post e :
  load_failure E c = None →
  run_call E pre c post = Threw e →
  (status_at E pre c ≠ 0%Z ∧ e = error_of E c (VNum (status_at E pre c))) ∨
  (status_at E pre c = 0%Z ∧
   ∃ xhandle err payload,
     Deliver (call_index E pre) xhandle err payload ∈ post ∧
     err ≠ 0%Z ∧ e = error_of E c (VNum err)).
Proof.
  intros Hload Hrun.
  rewrite (run_call_bridge E pre c Hload), (bridge_promise_replay E pre c post Hload)
    in Hrun.
  unfold submitted_state in Hrun.
  destruct (truthy (status_at E pre c)) eqn:Hrc.
  - rewrite replay_settled in Hrun by reflexivity. injection Hrun as <-.
    left. split; [apply truthy_true; exact Hrc | reflexivity].
  - apply truthy_false in Hrc. right. split; [exact Hrc|].
    destruct (replay c (call_index E pre) post Pending) as [|w|r] eqn:Hr;
      try discriminate.
    injection Hrun as <-.
    destruct (replay_first c _ post _ Hr) as (xhandle & err & payload & Hin & Heq);
      [discriminate|].
    simpl in Heq. destruct (truthy err) eqn:Herr; [|discriminate].
    injection Heq as ->.
    exists xhandle, err, payload.
    split; [exact Hin|]. split; [apply truthy_true; exact Herr | reflexivity].
Qed.

Lemma error_code_was_reported_witness :
  (status_at (scripted [6%Z]) [] (CUpdateAgentInfo "{}") ≠ 0%Z ∧
   new_VCXInternalError (VNum 6) None None
   = error_of (scripted [6%Z]) (CUpdateAgentInfo "{}")
       (VNum (status_at (scripted [6%Z]) [] (CUpdateAgentInfo "{}")))) ∨
  (status_at (scripted [6%Z]) [] (CUpdateAgentInfo "{}") = 0%Z ∧
   ∃ xhandle err payload,
     Deliver (call_index (scripted [6%Z]) []) xhandle err payload
       ∈ [Deliver 0 0 9 VNull] ∧
     err ≠ 0%Z ∧
     new_VCXInternalError (VNum 6) None None
     = error_of (scripted [6%Z]) (CUpdateAgentInfo "{}") (VNum err)).
Proof.
  apply (error_code_was_reported (scripted [6%Z]) [] (CUpdateAgentInfo "{}")
           [Deliver 0 0 9 VNull] (new_VCXInternalError (VNum 6) None None));
    reflexivity.
Defined.

(** X7: in every run, also one in which the native layer breaks its
    protocol, the number of [resolve] and [reject] calls made for a call
    is one for a non-zero immediate status plus one for each invocation of
    its callback: the executor settles only on failure, and a callback
    invocation calls exactly one of the two functions. *)
Theorem settlement_attempts_counted E pre c post :
  load_failure E c = None →
  attempts_on (call_index E pre) (heap (world (after_call E pre c post)))
  = (if truthy (status_at E pre c) then 1 else 0)
    + length (deliveries (call_index E pre) post).
Proof.
  intros Hload. rewrite (after_call_exec E pre c).
  rewrite exec_attempts.
  - f_equal. rewrite (submit_step E pre c Hload). cbn [world].
    rewrite attempts_on_submitted.
    rewrite (call_index_fresh E pre) at 1.
    rewrite (fresh_unattempted E _ (Inv_reachable E pre)).
    rewrite decide_True by (symmetry; apply call_index_fresh).
    reflexivity.
  - apply submit_Inv.
  - eapply lookup_lt_Some. apply (submit_call E pre c Hload).
Qed.

Lemma settlement_attempts_counted_witness :
  attempts_on 0
    (heap (world (after_call (scripted [4%Z]) [] (CGetTokenInfo 1)
                    [Deliver 0 0 0 (VStr "a"); Deliver 0 0 0 (VStr "b")])))
  = 3.
Proof.
  apply (settlement_attempts_counted (scripted [4%Z]) [] (CGetTokenInfo 1)
           [Deliver 0 0 0 (VStr "a"); Deliver 0 0 0 (VStr "b")]).
  reflexivity.
Defined.

(** X8: the command handle the native layer echoes to a callback plays no
    part: a run in which every callback receives another handle ends in
    the same state. *)
Theorem echoed_handle_ignored E f evs :
  exec E (map (echo f) evs) init = exec E evs init.
Proof.
  generalize (Inv_init E). generalize init.
  induction evs as [|e evs IH]; intros s HI; [reflexivity|].
  simpl. rewrite (step_echo E f s e HI). apply IH, Inv_step, HI.
Qed.

(** X9: when loading the library throws, [provisionAgent] throws the
    structured error made from the thrown value, makes no native call and
    creates no promise, and no later event changes that. *)
Theorem provisionAgent_load_failure E configAgent options pre post e :
  load_error E (libVCXPath options) = Some e →
  run_call E pre (CProvisionAgent configAgent options) post
  = Threw (new_VCXInternalError e None None) ∧
  world (step E (exec E pre init) (Submit (CProvisionAgent configAgent options)))
  = world (exec E pre init).
Proof.
  intros Hload. split.
  - apply run_call_load_failure. exact Hload.
  - unfold step.
    rewrite (invoke_load_failure E (CProvisionAgent configAgent options) _ e Hload).
    reflexivity.
Qed.

Lemma provisionAgent_load_failure_witness :
  run_call (unloadable (VError "Dynamic Linking Error")) [Submit CGetLedgerFees]
    (CProvisionAgent "config" {| libVCXPath := Some "invalidPath" |})
    [Deliver 0 0 0 (VStr "fees")]
  = Threw (new_VCXInternalError (VError "Dynamic Linking Error") None None).
Proof.
  apply (provisionAgent_load_failure (unloadable (VError "Dynamic Linking Error"))
           "config" {| libVCXPath := Some "invalidPath" |} [Submit CGetLedgerFees]
           [Deliver 0 0 0 (VStr "fees")]).
  reflexivity.
Defined.

(** X10: an error tells its caller no more than its code and the label of
    the [catch] block: two operations with the same label that fail with
    the same code throw equal errors.  So a failure of [updateRecordTags],
    [addRecordTags] or [deleteRecordTags] cannot be told from one of the
    other two, nor [closeSearch] from [openSearch], nor one operation of
    utils.ts from another. *)
Theorem errors_differ_by_code_and_label E c1 c2 pre1 post1 pre2 post2 e1 e2 :
  load_failure E c1 = None →
  load_failure E c2 = None →
  catch_label c1 = catch_label c2 →
  run_call E pre1 c1 post1 = Threw e1 →
  run_call E pre2 c2 post2 = Threw e2 →
  vcxCode e1 = vcxCode e2 →
  e1 = e2.
Proof.
  intros Hl1 Hl2 Hlabel H1 H2 Hcode.
  rewrite (run_call_bridge E pre1 c1 Hl1) in H1.
  rewrite (run_call_bridge E pre2 c2 Hl2) in H2.
  destruct (bridge_promise E pre1 c1 post1) as [[|v1|r1]|]; try discriminate.
  destruct (bridge_promise E pre2 c2 post2) as [[|v2|r2]|]; try discriminate.
  injection H1 as <-. injection H2 as <-.
  assert (Hr : r1 = r2).
  { unfold error_of in Hcode.
    destruct (is_wallet c1), (is_wallet c2); exact Hcode. }
  subst r2. apply error_of_same_label; exact Hlabel.
Qed.

Lemma errors_differ_by_code_and_label_witness :
  new_VCXInternalError (VNum 2) (Some "error") (Some "vcx_wallet_wallet_update_tags")
  = new_VCXInternalError (VNum 2) (Some "error") (Some "vcx_wallet_wallet_update_tags").
Proof.
  apply (errors_differ_by_code_and_label (scripted [2%Z])
           (CAddRecordTags record0) (CDeleteRecordTags record0 ["tag"])
           [] [] [Submit CGetLedgerFees] [Deliver 1 0 2 VNull]);
    reflexivity.
Defined.
